(** * Schnorr signatures and blind Schnorr signatures (package [schnorr])

    A shallow embedding of [schnorr/schnorr.go] and the properties of
    the scheme that follow from the code.

    - [*big.Int] values are integers [Z]; the three [math/big] methods
      with a side condition ([Mod], [Exp], [Cmp] on a nil result) are
      modelled with their failure.
    - [crypto/sha256] is modelled by an executable SHA-256 (FIPS 180-4),
      checked below on the standard test vectors.
    - [crypto/rand] is an oracle: a tape of the values its calls return.
    - [fmt.Println] appends a line to the standard output of the world.
    - a Go panic is an outcome of its own. *)

From Stdlib Require Import ZArith Lia List Bool.
From Stdlib Require Import Znumtheory Zpow_facts.
From Stdlib Require Import Strings.String Strings.Ascii DecimalString.
From Stdlib Require DecimalFacts DecimalPos DecimalZ.
From Stdlib Require Import Zmod.Zmod Zmod.Zstar.
Import ListNotations.

Local Open Scope Z_scope.

(* ================================================================= *)
(** ** Prime numbers *)

(** Primality by trial division. *)
Definition is_prime (p : Z) : bool :=
  (1 <? p) &&
  forallb (fun d => negb (p mod d =? 0))
          (map Z.of_nat (seq 2 (Z.to_nat p - 2))).

(* ================================================================= *)
(** ** crypto/sha256 *)

Module SHA256.

Definition mask32 : Z := 0xFFFFFFFF.

Definition add32 (a b : Z) : Z := Z.land (a + b) mask32.

Definition rotr (n x : Z) : Z :=
  Z.lor (Z.shiftr x n) (Z.land (Z.shiftl x (32 - n)) mask32).

Definition not32 (x : Z) : Z := Z.lxor x mask32.

Definition Ch (x y z : Z) : Z :=
  Z.lxor (Z.land x y) (Z.land (not32 x) z).

Definition Maj (x y z : Z) : Z :=
  Z.lxor (Z.lxor (Z.land x y) (Z.land x z)) (Z.land y z).

Definition bsig0 (x : Z) : Z :=
  Z.lxor (Z.lxor (rotr 2 x) (rotr 13 x)) (rotr 22 x).

Definition bsig1 (x : Z) : Z :=
  Z.lxor (Z.lxor (rotr 6 x) (rotr 11 x)) (rotr 25 x).

Definition ssig0 (x : Z) : Z :=
  Z.lxor (Z.lxor (rotr 7 x) (rotr 18 x)) (Z.shiftr x 3).

Definition ssig1 (x : Z) : Z :=
  Z.lxor (Z.lxor (rotr 17 x) (rotr 19 x)) (Z.shiftr x 10).

(** The first 64 prime numbers: 2, 3, 5, ..., 311. *)
Definition first_primes : list Z :=
  filter is_prime (map Z.of_nat (seq 2 310)).

(** The integer cube root of [n], built bit by bit from bit [bits - 1]
    down. *)
Fixpoint cube_root (bits : nat) (n r : Z) : Z :=
  match bits with
  | O => r
  | S b =>
      let r' := r + 2 ^ Z.of_nat b in
      cube_root b n (if r' * r' * r' <=? n then r' else r)
  end.

(** The round constants: the first 32 bits of the fractional parts of
    the cube roots of the first 64 primes. *)
Definition K : list Z :=
  map (fun p => Z.land (cube_root 36 (p * 2 ^ 96) 0) mask32) first_primes.

(** The initial hash value: the first 32 bits of the fractional parts
    of the square roots of the first 8 primes. *)
Definition H0 : list Z :=
  map (fun p => Z.land (Z.sqrt (p * 2 ^ 64)) mask32) (firstn 8 first_primes).

(** Big-endian encoding of [x] on [n] bytes. *)
Fixpoint be_bytes (n : nat) (x : Z) : list Z :=
  match n with
  | O => []
  | S n' => Z.land (Z.shiftr x (8 * Z.of_nat n')) 0xFF :: be_bytes n' x
  end.

(** Padding: a [0x80] byte, zero bytes up to 56 modulo 64, and the
    length of the message in bits on eight bytes. *)
Definition pad (msg : list Z) : list Z :=
  let len := Z.of_nat (List.length msg) in
  msg ++ [0x80] ++ repeat 0 (Z.to_nat ((55 - len) mod 64))
      ++ be_bytes 8 (8 * len).

Fixpoint words (fuel : nat) (bs : list Z) : list Z :=
  match fuel, bs with
  | S f, b0 :: b1 :: b2 :: b3 :: rest =>
      (((b0 * 256 + b1) * 256 + b2) * 256 + b3) :: words f rest
  | _, _ => []
  end.

Fixpoint blocks (fuel : nat) (ws : list Z) : list (list Z) :=
  match fuel, ws with
  | S f, _ :: _ => firstn 16 ws :: blocks f (skipn 16 ws)
  | _, _ => []
  end.

(** Message schedule: [n] more words after the ones in [w]. *)
Fixpoint schedule (n : nat) (w : list Z) : list Z :=
  match n with
  | O => w
  | S n' =>
      let i := List.length w in
      let wi :=
        add32 (add32 (ssig1 (nth (i - 2) w 0)) (nth (i - 7) w 0))
              (add32 (ssig0 (nth (i - 15) w 0)) (nth (i - 16) w 0)) in
      schedule n' (w ++ [wi])
  end.

Record regs := Regs { ra : Z; rb : Z; rc : Z; rd : Z;
                      re : Z; rf : Z; rg : Z; rh : Z }.

Definition round (v : regs) (kw : Z * Z) : regs :=
  let t1 := add32 (add32 (add32 (rh v) (bsig1 (re v)))
                         (add32 (Ch (re v) (rf v) (rg v)) (fst kw)))
                  (snd kw) in
  let t2 := add32 (bsig0 (ra v)) (Maj (ra v) (rb v) (rc v)) in
  Regs (add32 t1 t2) (ra v) (rb v) (rc v)
       (add32 (rd v) t1) (re v) (rf v) (rg v).

Definition compress (h : regs) (block : list Z) : regs :=
  let w := schedule 48 block in
  let v := fold_left round (combine K w) h in
  Regs (add32 (ra h) (ra v)) (add32 (rb h) (rb v))
       (add32 (rc h) (rc v)) (add32 (rd h) (rd v))
       (add32 (re h) (re v)) (add32 (rf h) (rf v))
       (add32 (rg h) (rg v)) (add32 (rh h) (rh v)).

Definition init : regs :=
  Regs (nth 0 H0 0) (nth 1 H0 0) (nth 2 H0 0) (nth 3 H0 0)
       (nth 4 H0 0) (nth 5 H0 0) (nth 6 H0 0) (nth 7 H0 0).

(** [sha256.Sum256]: the digest, 32 bytes. *)
Definition Sum256 (msg : list Z) : list Z :=
  let bs := pad msg in
  let ws := words (List.length bs) bs in
  let h := fold_left compress (blocks (List.length ws) ws) init in
  flat_map (be_bytes 4)
    [ra h; rb h; rc h; rd h; re h; rf h; rg h; rh h].

End SHA256.

(** [[]byte(s)]: the bytes of a Go string. *)
Definition bytes_of_string (s : string) : list Z :=
  map (fun c => Z.of_N (N_of_ascii c)) (list_ascii_of_string s).


(* ================================================================= *)
(** ** Outcomes, the world and the monad of effects *)

(** The values a run can panic with. *)
Inductive panic : Type :=
| DivisionByZero   (* big.Int.Mod with a zero modulus *)
| NilDereference   (* a method called on a nil *big.Int *)
| RandArgument     (* rand.Int: argument to Int is <= 0 *)
| RandError.       (* panic(err) on an error of crypto/rand *)

(** [Timeout] is not a behaviour of the program: it says that the loop
    budget given to the model ran out before the loop ended. *)
Inductive res (A : Type) : Type :=
| Val (a : A)
| Throw (e : panic)
| Timeout.

Arguments Val {A} a.
Arguments Throw {A} e.
Arguments Timeout {A}.

Definition rbind {A B : Type} (r : res A) (k : A -> res B) : res B :=
  match r with
  | Val a => k a
  | Throw e => Throw e
  | Timeout => Timeout
  end.

(** The world: what [crypto/rand] will return, call after call, and
    the lines printed so far. *)
Record world : Type := World { tape : list Z; stdout : list string }.

Definition M (A : Type) : Type := world -> res (A * world).

Definition ret {A : Type} (a : A) : M A := fun w => Val (a, w).

Definition bind {A B : Type} (m : M A) (k : A -> M B) : M B :=
  fun w => rbind (m w) (fun aw => k (fst aw) (snd aw)).

Definition lift {A : Type} (r : res A) : M A :=
  fun w => rbind r (fun a => Val (a, w)).

Declare Scope go_scope.
Delimit Scope go_scope with go.
Notation "x <- m ;; k" := (bind m (fun x => k))
  (at level 61, m at next level, right associativity) : go_scope.
Notation "x <~ r ;; k" := (rbind r (fun x => k))
  (at level 61, r at next level, right associativity) : go_scope.
Local Open Scope go_scope.

(** [fmt.Println] of one string. *)
Definition Println (line : string) : M unit :=
  fun w => Val (tt, World (tape w) (stdout w ++ [line])).

(** [if err != nil { panic(err) }] *)
Definition must {A : Type} (m : M (option A)) : M A :=
  o <- m ;;
  match o with
  | Some a => ret a
  | None => fun _ => Throw RandError
  end.

(* ================================================================= *)
(** ** math/big on values *)

(** [x.String()]: decimal, with a minus sign for a negative number. *)
Definition big_String (x : Z) : string :=
  NilZero.string_of_int (Z.to_int x).

(** [SetBytes]: the bytes read as a big-endian unsigned integer. *)
Definition SetBytes (bs : list Z) : Z :=
  fold_left (fun acc b => acc * 256 + b) bs 0.

(** [z.Mod(x, y)]: Euclidean modulus, a run-time panic for [y = 0]. *)
Definition Mod (x y : Z) : res Z :=
  if y =? 0 then Throw DivisionByZero else Val (x mod Z.abs y).

(** [x.Cmp(y)] *)
Definition Cmp (x y : Z) : Z :=
  match x ?= y with
  | Lt => -1
  | Eq => 0
  | Gt => 1
  end.

(** [z.Exp(x, y, m)] on values: [x**y mod |m|]; for [m = 0] it is
    [x**y], or 1 when [y <= 0]; for [y < 0] the inverse of [x] is
    used, and there is no result when [x] and [m] are not relatively
    prime. *)
Definition Exp_value (x y m : Z) : option Z :=
  if m =? 0 then Some (if y <=? 0 then 1 else x ^ y)
  else if y <? 0 then
    if Z.gcd x m =? 1
    then Some (Z.invmod x (Z.abs m) ^ (- y) mod Z.abs m)
    else None
  else Some (x ^ y mod Z.abs m).

(* ================================================================= *)
(** ** math/big on shared objects

    [generateMultiplicativeGroup] updates [g] in place and compares the
    pointer returned by [Exp] with [g]: there the [*big.Int] are
    addresses in a heap. *)

Module Heap.

Definition ptr : Type := nat.
Definition heap : Type := list Z.

Definition load (h : heap) (a : ptr) : Z := nth a h 0.

Definition store (h : heap) (a : ptr) (v : Z) : heap :=
  firstn a h ++ v :: skipn (S a) h.

(** [big.NewInt(v)] *)
Definition NewInt (v : Z) (h : heap) : ptr * heap :=
  (List.length h, h ++ [v]).

(** [z.Exp(x, y, m)]: stores the result in [z] and returns [z]; when
    there is no result, [z] is unchanged and nil is returned. *)
Definition Exp (z x y m : ptr) (h : heap) : option ptr * heap :=
  match Exp_value (load h x) (load h y) (load h m) with
  | Some v => (Some z, store h z v)
  | None => (None, h)
  end.

(** [z.Add(x, y)]: stores the sum in [z] and returns [z]. *)
Definition Add (z x y : ptr) (h : heap) : ptr * heap :=
  (z, store h z (load h x + load h y)).

(** [x.Cmp(y)] with a receiver that may be nil. *)
Definition Cmp (x : option ptr) (y : ptr) (h : heap) : res Z :=
  match x with
  | Some x => Val (Cmp (load h x) (load h y))
  | None => Throw NilDereference
  end.

End Heap.

(* ================================================================= *)
(** ** crypto/rand

    The next entry of the tape is the value the call returns.  An
    empty tape, or an entry the function cannot return, is a failure
    of the reader: the call returns an error. *)

(** [rand.Int(rand.Reader, max)]: a value in [[0, max)]; panics when
    [max <= 0]. *)
Definition rand_Int (max : Z) : M (option Z) :=
  fun w =>
    if max <=? 0 then Throw RandArgument
    else match tape w with
         | [] => Val (None, w)
         | v :: t =>
             if (0 <=? v) && (v <? max)
             then Val (Some v, World t (stdout w))
             else Val (None, World t (stdout w))
         end.

(** [rand.Prime(rand.Reader, bits)]: a prime of the given bit length;
    an error when [bits < 2].  [rand.Prime] sets the two most
    significant bits of the number it returns, so that it is at least
    [3 * 2^(bits-2)]. *)
Definition rand_Prime (bits : Z) : M (option Z) :=
  fun w =>
    if bits <? 2 then Val (None, w)
    else match tape w with
         | [] => Val (None, w)
         | v :: t =>
             if is_prime v && (3 * 2 ^ (bits - 2) <=? v) && (v <? 2 ^ bits)
             then Val (Some v, World t (stdout w))
             else Val (None, World t (stdout w))
         end.

(* ================================================================= *)
(** ** package schnorr *)

Module SignatureKey.
Record t : Type := mk {
  p : Z;  (* group order (large prime number) *)
  g : Z;  (* generator *)
  x : Z   (* private key *)
}.
End SignatureKey.

Module PublicKey.
Record t : Type := mk {
  p : Z;  (* group order (large prime number) *)
  g : Z;  (* generator *)
  X : Z   (* public key, X = x * g *)
}.
End PublicKey.

Module Signature.
Record t : Type := mk {
  R : Z;  (* R = r * g *)
  s : Z   (* (r + H(R||m)x)modp *)
}.
End Signature.

(** [hash]: the SHA256 checksum of the given string. *)
Definition hash (s : string) : list Z :=
  SHA256.Sum256 (bytes_of_string s).

(** The loop of [generateMultiplicativeGroup], [fuel] iterations at
    most:
[[
    for {
        if g.Exp(g, p, p).Cmp(g) == 0 { break }
        g.Add(g, big.NewInt(1))
    }
]] *)
Fixpoint generator_loop (fuel : nat) (g p : Heap.ptr) (h : Heap.heap)
  : res Heap.heap :=
  match fuel with
  | O => Timeout
  | S fuel' =>
      let '(e, h) := Heap.Exp g g p p h in
      c <~ Heap.Cmp e g h ;;
      if c =? 0 then Val h
      else
        let '(one, h) := Heap.NewInt 1 h in
        let '(_, h) := Heap.Add g g one h in
        generator_loop fuel' g p h
  end.

(** [generateMultiplicativeGroup(bits)]: the values of [p] and [g] at
    the return. *)
Definition generateMultiplicativeGroup (fuel : nat) (bits : Z)
  : M (Z * Z) :=
  p <- must (rand_Prime bits) ;;
  let '(p, h) := Heap.NewInt p [] in
  let '(g, h) := Heap.NewInt 2 h in
  h <- lift (generator_loop fuel g p h) ;;
  ret (Heap.load h p, Heap.load h g).

(** [GenerateKeys()] *)
Definition GenerateKeys (fuel : nat)
  : M (SignatureKey.t * PublicKey.t) :=
  pg <- generateMultiplicativeGroup fuel 256 ;;
  let '(p, g) := pg in
  x <- must (rand_Int p) ;;
  let X := x * g in
  ret (SignatureKey.mk p g x, PublicKey.mk p g X).

(** [Sign(m, sk)] *)
Definition Sign (m : string) (sk : SignatureKey.t) : M Signature.t :=
  r <- must (rand_Int (SignatureKey.p sk)) ;;
  let R := r * SignatureKey.g sk in
  let c := hash (big_String R ++ m) in
  let cInt := SetBytes c in
  let s := cInt * SignatureKey.x sk in
  let s := r + s in
  s <- lift (Mod s (SignatureKey.p sk)) ;;
  ret (Signature.mk R s).

(** [VerifySignature(message, signature, publicKey)] *)
Definition VerifySignature (message : string) (signature : Signature.t)
  (publicKey : PublicKey.t) : res bool :=
  let sg := Signature.s signature * PublicKey.g publicKey in
  sg <~ Mod sg (PublicKey.p publicKey) ;;
  let c := hash (big_String (Signature.R signature) ++ message) in
  let cInt := SetBytes c in
  let cx := cInt * PublicKey.X publicKey in
  let rcx := Signature.R signature + cx in
  rcx <~ Mod rcx (PublicKey.p publicKey) ;;
  Val (Cmp sg rcx =? 0).

(** The local variables of [BlindSignatureProcess] when it returns.
    The Go function returns nothing; the embedding returns them so that
    the values exchanged in the four steps can be named.
    [userSignature] is [None] when the function returned before
    building it. *)
Record BlindLocals : Type := Locals {
  l_r : Z; l_R : Z; l_a : Z; l_b : Z; l_RP : Z; l_cpInt : Z;
  l_c : Z; l_s : Z; l_sg : Z; l_rcx : Z;
  l_userSignature : option Signature.t
}.

(** [BlindSignatureProcess(message, signerSignatureKey, publicKey)] *)
Definition BlindSignatureProcess (message : string)
  (signerSignatureKey : SignatureKey.t) (publicKey : PublicKey.t)
  : M BlindLocals :=
  _ <- Println "### Blind Schnorr Signature ###" ;;
  (* Step 1 *)
  r <- must (rand_Int (PublicKey.p publicKey)) ;;
  let R := r * PublicKey.g publicKey in
  (* Step 2 *)
  a <- must (rand_Int (PublicKey.p publicKey)) ;;
  b <- must (rand_Int (PublicKey.p publicKey)) ;;
  let RP := R + a * PublicKey.g publicKey in
  let RP := RP + b * PublicKey.X publicKey in
  let cp := hash (big_String RP ++ message) in
  let cpInt := SetBytes cp in
  let c := cpInt + b in
  c <- lift (Mod c (PublicKey.p publicKey)) ;;
  (* Step 3 *)
  let s := c * SignatureKey.x signerSignatureKey in
  let s := s + r in
  s <- lift (Mod s (SignatureKey.p signerSignatureKey)) ;;
  (* Step 4 *)
  let sg := s * PublicKey.g publicKey in
  sg <- lift (Mod sg (PublicKey.p publicKey)) ;;
  let cx := c * PublicKey.X publicKey in
  let rcx := R + cx in
  rcx <- lift (Mod rcx (PublicKey.p publicKey)) ;;
  if Cmp sg rcx =? 0 then
    _ <- Println "Signature received from Signer by User is valid!" ;;
    let sp := s + a in
    sp <- lift (Mod sp (PublicKey.p publicKey)) ;;
    let userSignature := Signature.mk RP sp in
    ok <- lift (VerifySignature message userSignature publicKey) ;;
    _ <- Println (if ok : bool
                  then "Signature created by User is valid!"
                  else "Signature created by User is invalid!") ;;
    ret (Locals r R a b RP cpInt c s sg rcx (Some userSignature))
  else
    _ <- Println "Signature received from Signer by User is invalid!" ;;
    ret (Locals r R a b RP cpInt c s sg rcx None).

(** [S.String()]: [fmt.Sprintf("(r=%s, s=%s)", S.R, S.s)]. *)
Definition Signature_String (S : Signature.t) : string :=
  "(r=" ++ big_String (Signature.R S)
  ++ ", s=" ++ big_String (Signature.s S) ++ ")".

(** [fmt.Println(a, b)]: a space is added between the operands. *)
Definition Println2 (a b : string) : M unit :=
  Println (a ++ " " ++ b).

(** [main()] of the demonstration program. *)
Definition main (fuel : nat) : M unit :=
  _ <- Println "### Schnorr signature ###" ;;
  let message := "hello"%string in
  _ <- Println2 "Message to sign: " message ;;
  keys <- GenerateKeys fuel ;;
  let '(signatureKey, publicKey) := keys in
  signature <- Sign message signatureKey ;;
  _ <- Println2 "Created signature:" (Signature_String signature) ;;
  isSignatureValid <- lift (VerifySignature message signature publicKey) ;;
  if isSignatureValid : bool then
    _ <- Println "Signature is valid. Schnorr signature alghoritm is working!" ;;
    _ <- BlindSignatureProcess message signatureKey publicKey ;;
    ret tt
  else
    _ <- Println "Signature is invalid. Schnorr singature alghoritm is not working!" ;;
    ret tt.

(** The part of [main] that follows [GenerateKeys], as a function of
    the keys. *)
Definition main_tail (signatureKey : SignatureKey.t)
  (publicKey : PublicKey.t) : M unit :=
  let message := "hello"%string in
  signature <- Sign message signatureKey ;;
  _ <- Println2 "Created signature:" (Signature_String signature) ;;
  isSignatureValid <- lift (VerifySignature message signature publicKey) ;;
  if isSignatureValid : bool then
    _ <- Println "Signature is valid. Schnorr signature alghoritm is working!" ;;
    _ <- BlindSignatureProcess message signatureKey publicKey ;;
    ret tt
  else
    _ <- Println "Signature is invalid. Schnorr singature alghoritm is not working!" ;;
    ret tt.

(** The lines of a run of [main] that goes to its end, for the
    signature [sig] that [Sign] returned. *)
Definition main_lines (sig : Signature.t) : list string :=
  ["### Schnorr signature ###"%string;
   "Message to sign:  hello"%string;
   ("Created signature: " ++ Signature_String sig)%string;
   "Signature is valid. Schnorr signature alghoritm is working!"%string;
   "### Blind Schnorr Signature ###"%string;
   "Signature received from Signer by User is valid!"%string;
   "Signature created by User is valid!"%string].

(* ================================================================= *)
(** ** Specification vocabulary *)


(** The challenge, as [Sign], [VerifySignature] and
    [BlindSignatureProcess] compute it from a commitment and a message:
    [new(big.Int).SetBytes(hash(R.String() + m))]. *)
Definition challenge (R : Z) (m : string) : Z :=
  SetBytes (hash (big_String R ++ m)).

(** The public key that [GenerateKeys] builds next to a signature key:
    same group, [X = x * g]. *)
Definition public_of (sk : SignatureKey.t) : PublicKey.t :=
  PublicKey.mk (SignatureKey.p sk) (SignatureKey.g sk)
               (SignatureKey.x sk * SignatureKey.g sk).

(** The test group of small order: p = 23, g = 5, x = 6. *)
Definition sk23 : SignatureKey.t := SignatureKey.mk 23 5 6.
Definition pk23 : PublicKey.t := PublicKey.mk 23 5 30.

(** A public key that does not belong to [sk23]. *)
Definition pk23_other : PublicKey.t := PublicKey.mk 23 5 31.

(** A prime of 256 bits with its two most significant bits set, as
    [rand.Prime(rand.Reader, 256)] returns them. *)
Definition prime256 : Z := 207 * 2 ^ 248 + 1.

(* ================================================================= *)
(** ** The model on known values *)

Example sha_constants :
  nth 0 SHA256.K 0 = 0x428a2f98 /\ nth 63 SHA256.K 0 = 0xc67178f2 /\
  List.length SHA256.K = 64%nat /\
  nth 0 SHA256.H0 0 = 0x6a09e667 /\ nth 7 SHA256.H0 0 = 0x5be0cd19.
Proof. vm_compute. repeat split; reflexivity. Qed.

Example sha_empty :
  SHA256.Sum256 (bytes_of_string EmptyString) =
  SHA256.be_bytes 32
    0xe3b0c44298fc1c149afbf4c8996fb92427ae41e4649b934ca495991b7852b855.
Proof. vm_compute. reflexivity. Qed.

Example sha_abc :
  SHA256.Sum256 (bytes_of_string "abc") =
  SHA256.be_bytes 32
    0xba7816bf8f01cfea414140de5dae2223b00361a396177a9cb410ff61f20015ad.
Proof. vm_compute. reflexivity. Qed.

Example sha_two_blocks :
  SHA256.Sum256
    (bytes_of_string
       "abcdbcdecdefdefgefghfghighijhijkijkljklmklmnlmnomnopnopq") =
  SHA256.be_bytes 32
    0x248d6a61d20638b8e5c026930c3e6039a33ce45964ff2167f6ecedd419db06c1.
Proof. vm_compute. reflexivity. Qed.

Example big_String_values :
  big_String 0 = "0"%string /\ big_String 1005 = "1005"%string /\
  big_String (-120) = "-120"%string.
Proof. repeat split; reflexivity. Qed.

Example SetBytes_big_endian : SetBytes [1; 0; 255] = 0x0100FF.
Proof. reflexivity. Qed.


Example Sign_hello :
  Sign "hello" sk23 (World [7] []) = Val (Signature.mk 35 17, World [] []).
Proof. vm_compute. reflexivity. Qed.

Example Verify_hello :
  VerifySignature "hello" (Signature.mk 35 17) pk23 = Val true /\
  VerifySignature "hellp" (Signature.mk 35 17) pk23 = Val false.
Proof. split; vm_compute; reflexivity. Qed.

Example generate_29 :
  generateMultiplicativeGroup 1 5 (World [29] []) = Val ((29, 2), World [] []).
Proof. vm_compute. reflexivity. Qed.

(* ================================================================= *)
(** ** math/big: basic facts *)

(** The digest is never unfolded on a symbolic input. *)
Opaque SHA256.Sum256.

Lemma Mod_zero (x : Z) : Mod x 0 = Throw DivisionByZero.
Proof. reflexivity. Qed.

Lemma Mod_nonzero (x y : Z) : y <> 0 -> Mod x y = Val (x mod Z.abs y).
Proof.
  intros Hy. unfold Mod. destruct (Z.eqb_spec y 0); [contradiction | reflexivity].
Qed.

Lemma Mod_pos (x y : Z) : 0 < y -> Mod x y = Val (x mod y).
Proof.
  intros Hy. rewrite Mod_nonzero by lia. rewrite Z.abs_eq by lia. reflexivity.
Qed.

Lemma Cmp_eqb (x y : Z) : (Cmp x y =? 0) = (x =? y).
Proof.
  unfold Cmp. destruct (Z.compare_spec x y) as [-> | H | H].
  - rewrite !Z.eqb_refl. reflexivity.
  - symmetry. apply Z.eqb_neq. lia.
  - symmetry. apply Z.eqb_neq. lia.
Qed.

(** Adding a multiple of [p] does not change the Euclidean residue. *)
Lemma mod_abs_add_multiple (a k p : Z) :
  (a + k * p) mod Z.abs p = a mod Z.abs p.
Proof.
  destruct (Z.abs_spec p) as [[_ E] | [_ E]]; rewrite E.
  - apply Z_mod_plus_full.
  - replace (a + k * p) with (a + (- k) * (- p)) by ring.
    apply Z_mod_plus_full.
Qed.

(* ================================================================= *)
(** ** VerifySignature *)

(** What [VerifySignature] computes, for every input. *)
Lemma VerifySignature_unfold (m : string) (sig : Signature.t)
  (pk : PublicKey.t) :
  VerifySignature m sig pk =
  if PublicKey.p pk =? 0 then Throw DivisionByZero
  else Val ((Signature.s sig * PublicKey.g pk) mod Z.abs (PublicKey.p pk)
            =? (Signature.R sig
                + challenge (Signature.R sig) m * PublicKey.X pk)
               mod Z.abs (PublicKey.p pk)).
Proof.
  unfold VerifySignature, challenge.
  destruct (Z.eqb_spec (PublicKey.p pk) 0) as [E | E].
  - rewrite E. reflexivity.
  - rewrite !Mod_nonzero by assumption. unfold rbind.
    now rewrite Cmp_eqb.
Qed.

Lemma challenge_unfold (R : Z) (m : string) :
  challenge R m =
  SetBytes (SHA256.Sum256 (bytes_of_string (big_String R ++ m))).
Proof. reflexivity. Qed.

Lemma challenge_hash (R : Z) (m : string) :
  SetBytes (hash (big_String R ++ m)) = challenge R m.
Proof. reflexivity. Qed.

Lemma Val_inj {A : Type} (a b : A) : Val a = Val b -> a = b.
Proof. intros H. inversion H. reflexivity. Qed.

(** C3.  [VerifySignature] returns true if and only if
    [s*g mod p = (R + c*X) mod p], where [c] is the SHA-256 digest of
    the decimal string of [R] followed by the message, read as a
    big-endian integer.  [mod] is the Euclidean modulus of [big.Int.Mod],
    defined for [p <> 0]. *)
Theorem VerifySignature_accepts_iff (m : string) (sig : Signature.t)
  (pk : PublicKey.t) :
  PublicKey.p pk <> 0 ->
  VerifySignature m sig pk = Val true <->
  (Signature.s sig * PublicKey.g pk) mod Z.abs (PublicKey.p pk) =
  (Signature.R sig
   + SetBytes (SHA256.Sum256
                 (bytes_of_string (big_String (Signature.R sig) ++ m)))
     * PublicKey.X pk) mod Z.abs (PublicKey.p pk).
Proof.
  intros Hp. rewrite VerifySignature_unfold.
  rewrite <- challenge_unfold.
  generalize (challenge (Signature.R sig) m). intros c.
  destruct (Z.eqb_spec (PublicKey.p pk) 0) as [E | _]; [contradiction |].
  rewrite <- Z.eqb_eq.
  split.
  - intros H. apply Val_inj in H. exact H.
  - intros H. rewrite H. reflexivity.
Qed.

Lemma VerifySignature_accepts_iff_witness :
  VerifySignature "hello" (Signature.mk 35 17) pk23 = Val true <->
  (Signature.s (Signature.mk 35 17) * PublicKey.g pk23)
    mod Z.abs (PublicKey.p pk23) =
  (Signature.R (Signature.mk 35 17)
   + SetBytes (SHA256.Sum256
                 (bytes_of_string
                    (big_String (Signature.R (Signature.mk 35 17))
                     ++ "hello")))
     * PublicKey.X pk23) mod Z.abs (PublicKey.p pk23).
Proof.
  refine (VerifySignature_accepts_iff "hello" (Signature.mk 35 17) pk23 _).
  intros H. discriminate H.
Defined.

(** C10.  Verification depends on the response only modulo the group
    order: adding any multiple of [p] to the response of a signature
    leaves the result of [VerifySignature] unchanged. *)
Theorem VerifySignature_response_mod_p (m : string) (R s k : Z)
  (pk : PublicKey.t) :
  VerifySignature m (Signature.mk R (s + k * PublicKey.p pk)) pk =
  VerifySignature m (Signature.mk R s) pk.
Proof.
  rewrite !VerifySignature_unfold.
  cbn [Signature.R Signature.s].
  generalize (challenge R m). intros c.
  destruct (PublicKey.p pk =? 0); [reflexivity |].
  replace ((s + k * PublicKey.p pk) * PublicKey.g pk)
    with (s * PublicKey.g pk + (k * PublicKey.g pk) * PublicKey.p pk) by ring.
  rewrite mod_abs_add_multiple. reflexivity.
Qed.

(** C7, as the code has it.  [VerifySignature] panics exactly when the
    order is zero; for every other order it returns a boolean, and that
    boolean is the result of the congruence test alone: no range of [R]
    or [s] is checked. *)
Theorem VerifySignature_total_without_range_check (m : string)
  (sig : Signature.t) (pk : PublicKey.t) :
  (PublicKey.p pk = 0 -> VerifySignature m sig pk = Throw DivisionByZero) /\
  (PublicKey.p pk <> 0 ->
   VerifySignature m sig pk =
   Val ((Signature.s sig * PublicKey.g pk) mod Z.abs (PublicKey.p pk)
        =? (Signature.R sig
            + challenge (Signature.R sig) m * PublicKey.X pk)
           mod Z.abs (PublicKey.p pk))).
Proof.
  rewrite VerifySignature_unfold.
  generalize (challenge (Signature.R sig) m). intros c.
  destruct (Z.eqb_spec (PublicKey.p pk) 0) as [E | E]; split; intros H;
    try reflexivity; contradiction.
Qed.

Lemma VerifySignature_total_without_range_check_witness :
  VerifySignature "hello" (Signature.mk 35 17) (PublicKey.mk 0 5 30)
  = Throw DivisionByZero /\
  exists b, VerifySignature "hello" (Signature.mk 35 40) pk23 = Val b.
Proof.
  split.
  - apply (proj1 (VerifySignature_total_without_range_check
                    "hello" (Signature.mk 35 17) (PublicKey.mk 0 5 30))).
    reflexivity.
  - eexists.
    apply (proj2 (VerifySignature_total_without_range_check
                    "hello" (Signature.mk 35 40) pk23)).
    intros H. discriminate H.
Defined.

(** C7, as the specification states it, fails: a response outside
    [[0, p)] is accepted, and a zero order makes the call panic. *)
Lemma VerifySignature_range_counterexample :
  ~ (0 <= Signature.s (Signature.mk 35 40) < PublicKey.p pk23) /\
  VerifySignature "hello" (Signature.mk 35 40) pk23 = Val true /\
  VerifySignature "hello" (Signature.mk 35 17) (PublicKey.mk 0 5 30)
  = Throw DivisionByZero.
Proof.
  split; [cbn; lia |]. split; vm_compute; reflexivity.
Qed.

(* ================================================================= *)
(** ** crypto/rand: a draw in range *)

Lemma rand_Int_draw (max v : Z) (rest : list Z) (out : list string) :
  0 <= v < max ->
  must (rand_Int max) (World (v :: rest) out) = Val (v, World rest out).
Proof.
  intros Hv. unfold must, bind, rand_Int. cbn [tape stdout].
  destruct (Z.leb_spec max 0) as [H | _]; [lia |].
  destruct (Z.leb_spec 0 v) as [_ | H]; [| lia].
  destruct (Z.ltb_spec v max) as [_ | H]; [| lia].
  reflexivity.
Qed.

(* ================================================================= *)
(** ** Sign *)

Lemma Sign_value (m : string) (sk : SignatureKey.t) (r : Z)
  (rest : list Z) (out : list string) :
  0 <= r < SignatureKey.p sk ->
  Sign m sk (World (r :: rest) out) =
  Val (Signature.mk
         (r * SignatureKey.g sk)
         ((r + challenge (r * SignatureKey.g sk) m * SignatureKey.x sk)
          mod SignatureKey.p sk),
       World rest out).
Proof.
  intros Hr. unfold Sign, challenge.
  unfold bind at 1. rewrite rand_Int_draw by assumption.
  cbv beta iota delta [rbind fst snd].
  generalize (SetBytes (hash (big_String (r * SignatureKey.g sk) ++ m))).
  intros c.
  unfold bind, lift, ret. rewrite Mod_pos by lia. reflexivity.
Qed.

(** C4.  With the nonce [r] drawn in [[0, p)], [Sign] returns the
    signature of commitment [R = r * g] and of response
    [(r + c * x) mod p], where [c] is the challenge of [R] and the
    message, not reduced modulo [p]. *)
Theorem Sign_algorithm (m : string) (sk : SignatureKey.t) (r : Z)
  (rest : list Z) (out : list string) :
  0 <= r < SignatureKey.p sk ->
  let R := r * SignatureKey.g sk in
  let c := SetBytes (SHA256.Sum256 (bytes_of_string (big_String R ++ m))) in
  Sign m sk (World (r :: rest) out) =
  Val (Signature.mk R ((r + c * SignatureKey.x sk) mod SignatureKey.p sk),
       World rest out).
Proof.
  intros Hr R c. subst R c. rewrite <- challenge_unfold.
  apply Sign_value. exact Hr.
Qed.

Lemma Sign_algorithm_witness :
  0 <= 7 < SignatureKey.p sk23 /\
  Sign "hello" sk23 (World [7] []) =
  Val (Signature.mk 35 17, World [] []).
Proof.
  split; [cbn; lia |].
  rewrite (Sign_algorithm "hello" sk23 7 [] []) by (cbn; lia).
  vm_compute. reflexivity.
Defined.

(** The congruence behind the completeness of the scheme. *)
Lemma response_congruence (p g x r c : Z) :
  ((r + c * x) mod p * g) mod p = (r * g + c * (x * g)) mod p.
Proof.
  rewrite Zmult_mod_idemp_l. f_equal. ring.
Qed.

(** C1.  Completeness: for every group [(p, g)], private key [x],
    message and nonce [r] drawn in [[0, p)], the signature that [Sign]
    returns is accepted by [VerifySignature] under the public key
    [X = x * g] of the signer. *)
Theorem Sign_then_VerifySignature (m : string) (sk : SignatureKey.t)
  (r : Z) (rest : list Z) (out : list string) :
  0 <= r < SignatureKey.p sk ->
  exists sig : Signature.t,
    Sign m sk (World (r :: rest) out) = Val (sig, World rest out) /\
    VerifySignature m sig (public_of sk) = Val true.
Proof.
  intros Hr. eexists. split; [apply Sign_value; exact Hr |].
  rewrite VerifySignature_unfold.
  cbv beta iota delta [public_of PublicKey.p PublicKey.g PublicKey.X
                       Signature.R Signature.s].
  generalize (challenge (r * SignatureKey.g sk) m). intros c.
  destruct (Z.eqb_spec (SignatureKey.p sk) 0) as [E | _]; [lia |].
  rewrite Z.abs_eq by lia.
  rewrite response_congruence, Z.eqb_refl. reflexivity.
Qed.

Lemma Sign_then_VerifySignature_witness :
  exists sig : Signature.t,
    Sign "hello" sk23 (World [7] []) = Val (sig, World [] []) /\
    VerifySignature "hello" sig (public_of sk23) = Val true.
Proof.
  apply (Sign_then_VerifySignature "hello" sk23 7 [] []).
  cbn. lia.
Defined.

(* ================================================================= *)
(** ** Stepping through the monad *)

Lemma bind_Val {A B : Type} (m : M A) (k : A -> M B) (w w' : world) (a : A) :
  m w = Val (a, w') -> bind m k w = k a w'.
Proof. intros H. unfold bind. rewrite H. reflexivity. Qed.

Lemma bind_lift_Val {A B : Type} (r : res A) (k : A -> M B) (w : world)
  (a : A) :
  r = Val a -> bind (lift r) k w = k a w.
Proof. intros H. unfold bind, lift. rewrite H. reflexivity. Qed.

Lemma bind_Println {B : Type} (line : string) (k : unit -> M B) (w : world) :
  bind (Println line) k w = k tt (World (tape w) (stdout w ++ [line])).
Proof. reflexivity. Qed.

Ltac step_draw :=
  erewrite bind_Val by (apply rand_Int_draw; lia); cbv beta zeta.

Ltac step_Mod :=
  erewrite bind_lift_Val by (apply Mod_nonzero; lia); cbv beta zeta.

(* ================================================================= *)
(** ** BlindSignatureProcess *)

(** One run of [BlindSignatureProcess], from the three draws [r], [a]
    and [b] to the locals and the lines printed. *)
Lemma BlindSignatureProcess_run (message : string) (sk : SignatureKey.t)
  (pk : PublicKey.t) (r a b : Z) (rest : list Z) (out : list string) :
  0 <= r < PublicKey.p pk ->
  0 <= a < PublicKey.p pk ->
  0 <= b < PublicKey.p pk ->
  SignatureKey.p sk <> 0 ->
  let p := PublicKey.p pk in
  let R := r * PublicKey.g pk in
  let RP := R + a * PublicKey.g pk + b * PublicKey.X pk in
  let cpInt := challenge RP message in
  let c := (cpInt + b) mod p in
  let s := (c * SignatureKey.x sk + r) mod Z.abs (SignatureKey.p sk) in
  let sg := (s * PublicKey.g pk) mod p in
  let rcx := (R + c * PublicKey.X pk) mod p in
  let sp := (s + a) mod p in
  let ok := (sp * PublicKey.g pk) mod p =? (RP + cpInt * PublicKey.X pk) mod p in
  let out1 := out ++ ["### Blind Schnorr Signature ###"%string] in
  BlindSignatureProcess message sk pk (World (r :: a :: b :: rest) out) =
  if sg =? rcx then
    Val (Locals r R a b RP cpInt c s sg rcx (Some (Signature.mk RP sp)),
         World rest
           ((out1 ++ ["Signature received from Signer by User is valid!"%string])
            ++ [if ok then "Signature created by User is valid!"%string
                else "Signature created by User is invalid!"%string]))
  else
    Val (Locals r R a b RP cpInt c s sg rcx None,
         World rest
           (out1 ++ ["Signature received from Signer by User is invalid!"%string])).
Proof.
  intros Hr Ha Hb Hsk. cbv zeta.
  assert (Hp : Z.abs (PublicKey.p pk) = PublicKey.p pk) by lia.
  unfold BlindSignatureProcess.
  rewrite bind_Println. cbv beta iota delta [tape stdout].
  do 3 step_draw.
  rewrite challenge_hash.
  do 4 step_Mod. rewrite !Hp. rewrite Cmp_eqb.
  destruct (_ =? _).
  - rewrite bind_Println. cbv beta iota delta [tape stdout].
    step_Mod. rewrite !Hp.
    erewrite bind_lift_Val.
    2:{ rewrite VerifySignature_unfold.
        destruct (Z.eqb_spec (PublicKey.p pk) 0) as [E | _]; [lia |].
        reflexivity. }
    cbv beta iota delta [Signature.R Signature.s].
    rewrite bind_Println. cbv beta iota delta [tape stdout].
    unfold ret. rewrite !Hp.
    generalize
      (challenge
         (r * PublicKey.g pk + a * PublicKey.g pk + b * PublicKey.X pk)
         message).
    intros cp. reflexivity.
  - rewrite bind_Println.
    generalize
      (challenge
         (r * PublicKey.g pk + a * PublicKey.g pk + b * PublicKey.X pk)
         message).
    intros cp. reflexivity.
Qed.

(** The congruence behind the completeness of the blind protocol. *)
Lemma blind_congruence (p g x r a b cp : Z) :
  ((((cp + b) mod p * x + r) mod p + a) mod p * g) mod p =
  (r * g + a * g + b * (x * g) + cp * (x * g)) mod p.
Proof.
  rewrite Zmult_mod_idemp_l.
  rewrite <- Zmult_mod_idemp_l, Zplus_mod_idemp_l, Zmult_mod_idemp_l.
  replace (((cp + b) mod p * x + r + a) * g)
    with ((cp + b) mod p * (x * g) + (r + a) * g) by ring.
  rewrite <- Zplus_mod_idemp_l, Zmult_mod_idemp_l, Zplus_mod_idemp_l.
  f_equal. ring.
Qed.

(** C2.  Blind-protocol completeness: for every group, key pair and
    message, and for every nonce [r] and blinding factors [a], [b]
    drawn in [[0, p)], the run goes through the four steps, the User's
    signature is [{R' = R + a*g + b*X, s' = (s + a) mod p}], and
    [VerifySignature] accepts it under the public key. *)
Theorem BlindSignatureProcess_complete (message : string)
  (sk : SignatureKey.t) (r a b : Z) (rest : list Z) (out : list string) :
  0 <= r < SignatureKey.p sk ->
  0 <= a < SignatureKey.p sk ->
  0 <= b < SignatureKey.p sk ->
  exists l : BlindLocals,
    BlindSignatureProcess message sk (public_of sk)
      (World (r :: a :: b :: rest) out) =
    Val (l, World rest
              (out ++ ["### Blind Schnorr Signature ###"%string;
                       "Signature received from Signer by User is valid!"%string;
                       "Signature created by User is valid!"%string])) /\
    l_userSignature l =
    Some (Signature.mk
            (l_R l + a * SignatureKey.g sk
             + b * (SignatureKey.x sk * SignatureKey.g sk))
            ((l_s l + a) mod SignatureKey.p sk)) /\
    l_R l = r * SignatureKey.g sk /\
    VerifySignature message
      (Signature.mk
         (l_R l + a * SignatureKey.g sk
          + b * (SignatureKey.x sk * SignatureKey.g sk))
         ((l_s l + a) mod SignatureKey.p sk))
      (public_of sk) = Val true.
Proof.
  intros Hr Ha Hb.
  assert (Hp : Z.abs (SignatureKey.p sk) = SignatureKey.p sk) by lia.
  pose proof (BlindSignatureProcess_run message sk (public_of sk) r a b
                rest out Hr Ha Hb ltac:(lia)) as Hrun.
  cbv zeta in Hrun.
  cbv beta iota delta [public_of PublicKey.p PublicKey.g PublicKey.X] in Hrun.
  rewrite Hp in Hrun.
  set (p := SignatureKey.p sk) in *.
  set (g := SignatureKey.g sk) in *.
  set (x := SignatureKey.x sk) in *.
  set (RP := r * g + a * g + b * (x * g)) in *.
  set (cp := challenge RP message) in *.
  assert (E1 : ((((cp + b) mod p * x + r) mod p * g) mod p
                =? (r * g + (cp + b) mod p * (x * g)) mod p) = true).
  { apply Z.eqb_eq. rewrite Zmult_mod_idemp_l. f_equal. ring. }
  assert (E2 : (((((cp + b) mod p * x + r) mod p + a) mod p * g) mod p
                =? (RP + cp * (x * g)) mod p) = true).
  { apply Z.eqb_eq. subst RP. apply blind_congruence. }
  rewrite E1, E2 in Hrun.
  unfold public_of. fold p g x.
  eexists. split.
  { rewrite Hrun. rewrite <- !app_assoc. reflexivity. }
  cbv beta iota delta [l_userSignature l_R l_s].
  split; [reflexivity |]. split; [reflexivity |].
  rewrite VerifySignature_unfold.
  cbv beta iota delta [PublicKey.p PublicKey.g PublicKey.X
                       Signature.R Signature.s].
  fold RP. fold cp.
  destruct (Z.eqb_spec p 0) as [E | _]; [lia |].
  rewrite Hp, E2. reflexivity.
Qed.

Lemma BlindSignatureProcess_complete_witness :
  exists l : BlindLocals,
    BlindSignatureProcess "hello" sk23 (public_of sk23)
      (World [7; 3; 4] []) =
    Val (l, World []
              ["### Blind Schnorr Signature ###"%string;
               "Signature received from Signer by User is valid!"%string;
               "Signature created by User is valid!"%string]) /\
    exists sig : Signature.t,
      l_userSignature l = Some sig /\
      VerifySignature "hello" sig (public_of sk23) = Val true.
Proof.
  destruct (BlindSignatureProcess_complete "hello" sk23 7 3 4 [] [])
    as [l [Hl [Hs [HR HV]]]]; try (cbn; lia).
  exists l. split; [exact Hl |].
  eexists. split; [exact Hs | exact HV].
Defined.

(** C6.  Protocol-violation detection: when the response [s] of
    step 3 fails the check of step 4, [s*g mod p = (R + c*X) mod p],
    the function prints that the signature received from the Signer is
    invalid and returns: no [s'] is computed, no User signature is
    built, and nothing else is printed. *)
Theorem BlindSignatureProcess_rejects_invalid_response (message : string)
  (sk : SignatureKey.t) (pk : PublicKey.t) (r a b : Z) (rest : list Z)
  (out : list string) :
  0 <= r < PublicKey.p pk ->
  0 <= a < PublicKey.p pk ->
  0 <= b < PublicKey.p pk ->
  SignatureKey.p sk <> 0 ->
  let R := r * PublicKey.g pk in
  let RP := R + a * PublicKey.g pk + b * PublicKey.X pk in
  let c := (challenge RP message + b) mod PublicKey.p pk in
  let s := (c * SignatureKey.x sk + r) mod Z.abs (SignatureKey.p sk) in
  (s * PublicKey.g pk) mod PublicKey.p pk
  <> (R + c * PublicKey.X pk) mod PublicKey.p pk ->
  exists l : BlindLocals,
    BlindSignatureProcess message sk pk (World (r :: a :: b :: rest) out) =
    Val (l, World rest
              (out ++ ["### Blind Schnorr Signature ###"%string;
                       "Signature received from Signer by User is invalid!"%string]))
    /\ l_c l = c /\ l_s l = s /\ l_userSignature l = None.
Proof.
  intros Hr Ha Hb Hsk R RP c s Hbad.
  pose proof (BlindSignatureProcess_run message sk pk r a b rest out
                Hr Ha Hb Hsk) as Hrun.
  cbv zeta in Hrun. fold R RP c s in Hrun.
  apply Z.eqb_neq in Hbad. rewrite Hbad in Hrun.
  eexists. split.
  { rewrite Hrun. rewrite <- app_assoc. reflexivity. }
  cbv beta iota delta [l_c l_s l_userSignature].
  repeat split; reflexivity.
Qed.

Lemma BlindSignatureProcess_rejects_invalid_response_witness :
  exists l : BlindLocals,
    BlindSignatureProcess "hello" sk23 pk23_other (World [7; 3; 4] []) =
    Val (l, World []
              ["### Blind Schnorr Signature ###"%string;
               "Signature received from Signer by User is invalid!"%string])
    /\ l_userSignature l = None.
Proof.
  destruct (BlindSignatureProcess_rejects_invalid_response
              "hello" sk23 pk23_other 7 3 4 [] [])
    as [l [Hl [_ [_ Hu]]]].
  - cbn. lia.
  - cbn. lia.
  - cbn. lia.
  - intros H. discriminate H.
  - vm_compute. intros H. discriminate H.
  - exists l. split; [exact Hl | exact Hu].
Defined.

(* ================================================================= *)
(** ** Runs that return *)

Lemma bind_inv {A B : Type} (m : M A) (k : A -> M B) (w : world)
  (r : B * world) :
  bind m k w = Val r ->
  exists (a : A) (w1 : world), m w = Val (a, w1) /\ k a w1 = Val r.
Proof.
  unfold bind. destruct (m w) as [[a w1] | e |];
    cbv beta iota delta [rbind fst snd]; intros H.
  - exists a, w1. split; [reflexivity | exact H].
  - discriminate H.
  - discriminate H.
Qed.

Lemma rand_Int_inv (max v : Z) (w w' : world) :
  must (rand_Int max) w = Val (v, w') ->
  0 <= v < max /\
  exists rest : list Z, tape w = v :: rest /\ w' = World rest (stdout w).
Proof.
  unfold must, bind, rand_Int.
  destruct (Z.leb_spec max 0) as [_ | _];
    [cbv beta iota delta [rbind]; intros H; discriminate H |].
  destruct (tape w) as [| v0 t];
    [cbv beta iota delta [rbind fst snd]; intros H; discriminate H |].
  destruct (Z.leb_spec 0 v0) as [H0 | _];
    [| cbv beta iota delta [rbind fst snd andb]; intros H; discriminate H].
  destruct (Z.ltb_spec v0 max) as [H1 | _];
    [| cbv beta iota delta [rbind fst snd andb]; intros H; discriminate H].
  cbv beta iota delta [rbind fst snd andb ret]. intros H.
  apply Val_inj in H. injection H as Hv Hw. subst v0 w'.
  split; [lia |]. exists t. split; reflexivity.
Qed.

Lemma bind_lift_Mod_inv {B : Type} (x y : Z) (k : Z -> M B) (w : world)
  (r : B * world) :
  bind (lift (Mod x y)) k w = Val r ->
  y <> 0 /\ k (x mod Z.abs y) w = Val r.
Proof.
  intros H. destruct (Z.eq_dec y 0) as [E | E].
  - subst y. rewrite Mod_zero in H. discriminate H.
  - split; [exact E |].
    rewrite (bind_lift_Val _ _ _ _ (Mod_nonzero x y E)) in H. exact H.
Qed.

(** A run of [BlindSignatureProcess] that returns has made its three
    draws in range, and the order of the signature key is not zero. *)
Lemma BlindSignatureProcess_inv (message : string) (sk : SignatureKey.t)
  (pk : PublicKey.t) (w w' : world) (l : BlindLocals) :
  BlindSignatureProcess message sk pk w = Val (l, w') ->
  exists (r a b : Z) (rest : list Z),
    w = World (r :: a :: b :: rest) (stdout w) /\
    0 <= r < PublicKey.p pk /\ 0 <= a < PublicKey.p pk /\
    0 <= b < PublicKey.p pk /\ SignatureKey.p sk <> 0.
Proof.
  unfold BlindSignatureProcess. rewrite bind_Println. intros H.
  apply bind_inv in H. destruct H as [r [w1 [Hr H]]].
  apply rand_Int_inv in Hr. destruct Hr as [Hr [t1 [Ht1 Hw1]]].
  cbv beta zeta in H.
  apply bind_inv in H. destruct H as [a [w2 [Ha H]]].
  apply rand_Int_inv in Ha. destruct Ha as [Ha [t2 [Ht2 Hw2]]].
  apply bind_inv in H. destruct H as [b [w3 [Hb H]]].
  apply rand_Int_inv in Hb. destruct Hb as [Hb [t3 [Ht3 Hw3]]].
  cbv beta zeta in H.
  apply bind_lift_Mod_inv in H. destruct H as [_ H].
  cbv beta zeta in H.
  apply bind_lift_Mod_inv in H. destruct H as [Hsk _].
  exists r, a, b, t3.
  subst w1 w2. cbv beta iota delta [tape stdout] in Ht1, Ht2, Ht3.
  subst t1 t2. destruct w as [tp so].
  cbv beta iota delta [tape stdout] in Ht1 |- *. subst tp.
  repeat split; try lia; assumption.
Qed.

(** The response of step 3 in a run that returns. *)
Lemma BlindSignatureProcess_step3 (message : string) (sk : SignatureKey.t)
  (pk : PublicKey.t) (w w' : world) (l : BlindLocals) :
  BlindSignatureProcess message sk pk w = Val (l, w') ->
  l_s l = (l_c l * SignatureKey.x sk + l_r l) mod Z.abs (SignatureKey.p sk).
Proof.
  intros H.
  destruct (BlindSignatureProcess_inv _ _ _ _ _ _ H)
    as [r [a [b [rest [Hw [Hr [Ha [Hb Hsk]]]]]]]].
  rewrite Hw in H.
  rewrite (BlindSignatureProcess_run message sk pk r a b rest (stdout w)
             Hr Ha Hb Hsk) in H.
  cbv zeta in H.
  destruct (_ =? _) in H; apply Val_inj in H;
    apply (f_equal fst) in H; cbv beta iota delta [fst] in H;
    subst l; reflexivity.
Qed.

(** C5.  Blindness at the interface: the response of step 3 is a
    function of the nonce [r], the challenge [c] received and the
    private key of the Signer ([x], with the order [p] of its group).
    Two runs that agree on these return the same response, whatever
    their messages, blinding factors and public keys. *)
Theorem BlindSignatureProcess_step3_blind (m1 m2 : string)
  (sk1 sk2 : SignatureKey.t) (pk1 pk2 : PublicKey.t)
  (w1 w1' w2 w2' : world) (l1 l2 : BlindLocals) :
  BlindSignatureProcess m1 sk1 pk1 w1 = Val (l1, w1') ->
  BlindSignatureProcess m2 sk2 pk2 w2 = Val (l2, w2') ->
  SignatureKey.x sk1 = SignatureKey.x sk2 ->
  SignatureKey.p sk1 = SignatureKey.p sk2 ->
  l_r l1 = l_r l2 ->
  l_c l1 = l_c l2 ->
  l_s l1 = l_s l2.
Proof.
  intros H1 H2 Hx Hp Hr Hc.
  rewrite (BlindSignatureProcess_step3 _ _ _ _ _ _ H1).
  rewrite (BlindSignatureProcess_step3 _ _ _ _ _ _ H2).
  rewrite Hx, Hp, Hr, Hc. reflexivity.
Qed.

Lemma BlindSignatureProcess_step3_blind_witness :
  exists (l1 l2 : BlindLocals) (w1' w2' : world),
    BlindSignatureProcess "hello" sk23 pk23 (World [7; 3; 4] [])
    = Val (l1, w1') /\
    BlindSignatureProcess "world" sk23 pk23 (World [7; 2; 11] [])
    = Val (l2, w2') /\
    l_a l1 <> l_a l2 /\ l_b l1 <> l_b l2 /\ l_RP l1 <> l_RP l2 /\
    l_c l1 = l_c l2 /\ l_s l1 = l_s l2.
Proof.
  do 4 eexists.
  split; [vm_compute; reflexivity |].
  split; [vm_compute; reflexivity |].
  split; [vm_compute; intros H; discriminate H |].
  split; [vm_compute; intros H; discriminate H |].
  split; [vm_compute; intros H; discriminate H |].
  split; [vm_compute; reflexivity |].
  eapply (BlindSignatureProcess_step3_blind "hello" "world" sk23 sk23
            pk23 pk23 (World [7; 3; 4] []) _ (World [7; 2; 11] []) _).
  - vm_compute. reflexivity.
  - vm_compute. reflexivity.
  - reflexivity.
  - reflexivity.
  - reflexivity.
  - reflexivity.
Defined.

(* ================================================================= *)
(** ** Primes *)

Lemma is_prime_prime (p : Z) : is_prime p = true -> Z.prime p.
Proof.
  unfold is_prime. intros H. apply andb_prop in H. destruct H as [H1 H2].
  apply Z.ltb_lt in H1. split; [exact H1 |].
  intros n Hn Hdiv.
  rewrite forallb_forall in H2.
  assert (Hin : In n (map Z.of_nat (seq 2 (Z.to_nat p - 2)))).
  { apply in_map_iff. exists (Z.to_nat n). split; [lia |].
    apply in_seq. lia. }
  apply H2 in Hin. apply negb_true_iff in Hin. apply Z.eqb_neq in Hin.
  apply Hin. apply Z.mod_divide; [lia | exact Hdiv].
Qed.

(** Fermat's little theorem. *)
Lemma fermat_little (a p : Z) : Z.prime p -> a ^ p mod p = a mod p.
Proof.
  intros Hp. pose proof (Z.prime_ge_2 _ Hp).
  apply Zmod.of_Z_inj. rewrite Zmod.of_Z_pow by lia.
  apply Zmod.fermat. exact Hp.
Qed.

(** What a successful call of [rand.Prime] returns. *)
Lemma rand_Prime_inv (bits p : Z) (w w' : world) :
  rand_Prime bits w = Val (Some p, w') ->
  Z.prime p /\ 2 < p /\ p < 2 ^ bits.
Proof.
  unfold rand_Prime.
  destruct (Z.ltb_spec bits 2) as [Hb | Hb];
    [intros H; discriminate H |].
  destruct (tape w) as [| v t]; [intros H; discriminate H |].
  destruct (is_prime v) eqn:Hv;
    [| cbv beta iota delta [andb]; intros H; discriminate H].
  destruct (Z.leb_spec (3 * 2 ^ (bits - 2)) v) as [Hlo | Hlo];
    [| cbv beta iota delta [andb]; intros H; discriminate H].
  destruct (Z.ltb_spec v (2 ^ bits)) as [Hhi | Hhi];
    [| cbv beta iota delta [andb]; intros H; discriminate H].
  cbv beta iota delta [andb]. intros H.
  apply Val_inj in H. injection H as Hp _. subst v.
  split; [apply is_prime_prime; exact Hv |].
  assert (0 < 2 ^ (bits - 2)) by (apply Z.pow_pos_nonneg; lia).
  split; [lia | exact Hhi].
Qed.

(* ================================================================= *)
(** ** generateMultiplicativeGroup *)

Lemma Cmp_refl (x : Z) : Cmp x x = 0.
Proof. unfold Cmp. rewrite Z.compare_refl. reflexivity. Qed.

(** The acceptance test compares [g] with itself: whatever the heap,
    the loop ends in its first iteration, with the value of [Exp] in
    [g], or panics because [Exp] returned nil. *)
Lemma generator_loop_first_iteration (fuel : nat) (g p : Heap.ptr)
  (h : Heap.heap) :
  generator_loop (S fuel) g p h =
  match Exp_value (Heap.load h g) (Heap.load h p) (Heap.load h p) with
  | Some v => Val (Heap.store h g v)
  | None => Throw NilDereference
  end.
Proof.
  cbv beta iota delta [generator_loop]. unfold Heap.Exp.
  destruct (Exp_value (Heap.load h g) (Heap.load h p) (Heap.load h p))
    as [v |].
  - unfold Heap.Cmp. cbv beta iota delta [rbind].
    rewrite Cmp_refl. reflexivity.
  - reflexivity.
Qed.

Lemma Exp_value_prime (p : Z) :
  Z.prime p -> 2 < p -> Exp_value 2 p p = Some 2.
Proof.
  intros Hp H2. unfold Exp_value.
  destruct (Z.eqb_spec p 0) as [E | _]; [lia |].
  destruct (Z.ltb_spec p 0) as [E | _]; [lia |].
  rewrite Z.abs_eq by lia.
  rewrite fermat_little by exact Hp.
  rewrite Z.mod_small by lia. reflexivity.
Qed.

(** Generation once [rand.Prime] has returned [p]. *)
Lemma generateMultiplicativeGroup_value (fuel : nat) (bits p : Z)
  (w w' : world) :
  rand_Prime bits w = Val (Some p, w') ->
  generateMultiplicativeGroup (S fuel) bits w = Val ((p, 2), w').
Proof.
  intros H. destruct (rand_Prime_inv _ _ _ _ H) as [Hp [H2 _]].
  unfold generateMultiplicativeGroup.
  erewrite bind_Val.
  2:{ unfold must, bind. rewrite H. reflexivity. }
  cbv beta iota delta [Heap.NewInt List.length app].
  erewrite bind_lift_Val.
  2:{ rewrite generator_loop_first_iteration.
      cbv beta iota delta [Heap.load nth].
      rewrite Exp_value_prime by assumption. reflexivity. }
  reflexivity.
Qed.

(** Generation when [rand.Prime] has returned an error. *)
Lemma generateMultiplicativeGroup_error (fuel : nat) (bits : Z)
  (w w' : world) :
  rand_Prime bits w = Val (None, w') ->
  generateMultiplicativeGroup fuel bits w = Throw RandError.
Proof.
  intros H. unfold generateMultiplicativeGroup, must, bind.
  rewrite H. reflexivity.
Qed.

Lemma rand_Prime_cases (bits : Z) (w : world) :
  (exists (p : Z) (w' : world), rand_Prime bits w = Val (Some p, w')) \/
  (exists w' : world, rand_Prime bits w = Val (None, w')).
Proof.
  unfold rand_Prime.
  destruct (bits <? 2); [right; eexists; reflexivity |].
  destruct (tape w) as [| v t]; [right; eexists; reflexivity |].
  destruct (is_prime v && (3 * 2 ^ (bits - 2) <=? v) && (v <? 2 ^ bits)).
  - left. do 2 eexists. reflexivity.
  - right. eexists. reflexivity.
Qed.

(** C9.  For every prime [p] drawn, the loop of the generator search
    ends in its first iteration, since [g.Exp(g, p, p).Cmp(g)] compares
    [g] with itself, and the generator returned is 2, since
    [2^p mod p = 2]. *)
Theorem generateMultiplicativeGroup_generator_is_2 (bits p : Z)
  (w w' : world) :
  rand_Prime bits w = Val (Some p, w') ->
  (forall (fuel : nat) (g q : Heap.ptr) (h : Heap.heap),
     generator_loop (S fuel) g q h = generator_loop 1 g q h /\
     generator_loop 1 g q h <> Timeout) /\
  2 ^ p mod p = 2 /\
  forall fuel : nat,
    generateMultiplicativeGroup (S fuel) bits w = Val ((p, 2), w').
Proof.
  intros H. split; [| split].
  - intros fuel g q h. rewrite !generator_loop_first_iteration.
    split; [reflexivity |].
    destruct (Exp_value _ _ _); intros E; discriminate E.
  - destruct (rand_Prime_inv _ _ _ _ H) as [Hp [H2 _]].
    rewrite fermat_little by exact Hp. apply Z.mod_small. lia.
  - intros fuel. apply generateMultiplicativeGroup_value. exact H.
Qed.

Lemma generateMultiplicativeGroup_generator_is_2_witness :
  rand_Prime 5 (World [29] []) = Val (Some 29, World [] []) /\
  generateMultiplicativeGroup 1 5 (World [29] []) = Val ((29, 2), World [] []).
Proof.
  assert (H : rand_Prime 5 (World [29] []) = Val (Some 29, World [] []))
    by (vm_compute; reflexivity).
  split; [exact H |].
  apply (generateMultiplicativeGroup_generator_is_2 5 29 _ _ H).
Defined.



(* ================================================================= *)
(** ** GenerateKeys *)

(** The keys that [GenerateKeys] returns belong together: the public
    key is [public_of] the signature key, and the generator is 2. *)
Lemma GenerateKeys_public_of (fuel : nat) (w w' : world)
  (sk : SignatureKey.t) (pk : PublicKey.t) :
  GenerateKeys fuel w = Val ((sk, pk), w') ->
  pk = public_of sk /\ 0 <= SignatureKey.x sk < SignatureKey.p sk.
Proof.
  unfold GenerateKeys. intros H.
  apply bind_inv in H. destruct H as [[p g] [w1 [_ H]]].
  cbv beta iota in H.
  apply bind_inv in H. destruct H as [x [w2 [Hx H]]].
  apply rand_Int_inv in Hx. destruct Hx as [Hx _].
  cbv beta zeta delta [ret] in H. apply Val_inj in H.
  injection H as Hsk Hpk _. subst sk pk.
  split; [reflexivity | exact Hx].
Qed.

Lemma GenerateKeys_value (fuel : nat) (p x : Z) (w w' : world)
  (rest : list Z) :
  rand_Prime 256 w = Val (Some p, w') ->
  tape w' = x :: rest ->
  0 <= x < p ->
  GenerateKeys (S fuel) w =
  Val ((SignatureKey.mk p 2 x, PublicKey.mk p 2 (x * 2)),
       World rest (stdout w')).
Proof.
  intros Hp Ht Hx. unfold GenerateKeys.
  erewrite bind_Val by (apply generateMultiplicativeGroup_value; exact Hp).
  cbv beta iota.
  destruct w' as [tp so]. cbv beta iota delta [tape stdout] in Ht |- *.
  subst tp.
  erewrite bind_Val by (apply rand_Int_draw; exact Hx).
  reflexivity.
Qed.

(** The plain scheme from end to end: keys from [GenerateKeys], a
    signature from [Sign], and [VerifySignature] accepts it. *)
Lemma GenerateKeys_Sign_VerifySignature (fuel : nat) (m : string)
  (w w' : world) (sk : SignatureKey.t) (pk : PublicKey.t) (r : Z)
  (rest : list Z) (out : list string) :
  GenerateKeys fuel w = Val ((sk, pk), w') ->
  0 <= r < SignatureKey.p sk ->
  exists sig : Signature.t,
    Sign m sk (World (r :: rest) out) = Val (sig, World rest out) /\
    VerifySignature m sig pk = Val true.
Proof.
  intros Hk Hr. apply GenerateKeys_public_of in Hk. destruct Hk as [Hk _].
  subst pk. eexists. split; [apply Sign_value; exact Hr |].
  rewrite VerifySignature_unfold.
  cbv beta iota delta [public_of PublicKey.p PublicKey.g PublicKey.X
                       Signature.R Signature.s].
  generalize (challenge (r * SignatureKey.g sk) m). intros c.
  destruct (Z.eqb_spec (SignatureKey.p sk) 0) as [E | _]; [lia |].
  rewrite Z.abs_eq by lia.
  rewrite response_congruence, Z.eqb_refl. reflexivity.
Qed.

(* ================================================================= *)
(** ** A certificate of primality

    The keys of [GenerateKeys] live in a group of 256 bits: trial
    division cannot show one such order prime, Proth's criterion can. *)

Lemma small_prime_divisor_nat (n : nat) :
  forall N : Z, N <= Z.of_nat n -> 1 < N -> ~ Z.prime N ->
  exists q : Z, Z.prime q /\ (q | N) /\ q * q <= N.
Proof.
  induction n as [| n IH]; intros N Hn H1 Hnp; [lia |].
  assert (Hnp' : ~ Znumtheory.prime N) by (rewrite <- prime_alt; exact Hnp).
  destruct (not_prime_divide N H1 Hnp') as [d [Hd [e He]]].
  assert (He1 : 1 < e < N) by nia.
  assert (Hm : exists m, 1 < m < N /\ (m | N) /\ m * m <= N).
  { destruct (Z_le_gt_dec d e).
    - exists d. repeat split; try lia; [exists e; exact He | nia].
    - exists e. repeat split; try lia; [exists d; lia | nia]. }
  destruct Hm as [m [Hm1 [Hm2 Hm3]]].
  destruct (prime_dec m) as [Hp | Hp].
  - exists m. rewrite prime_alt. auto.
  - rewrite <- prime_alt in Hp.
    destruct (IH m ltac:(lia) ltac:(lia) Hp) as [q [Hq1 [Hq2 Hq3]]].
    exists q. split; [exact Hq1 |]. split; [| nia].
    eapply Z.divide_trans; eassumption.
Qed.

Lemma small_prime_divisor (N : Z) :
  1 < N -> ~ Z.prime N ->
  exists q : Z, Z.prime q /\ (q | N) /\ q * q <= N.
Proof.
  intros. apply (small_prime_divisor_nat (Z.to_nat N)); auto. lia.
Qed.

Lemma divisor_of_pow2 (d n : Z) :
  1 <= n -> 0 < d -> (d | 2 ^ n) -> d = 2 ^ n \/ (d | 2 ^ (n - 1)).
Proof.
  intros Hn Hd [e He].
  assert (Hpow : 2 ^ n = 2 * 2 ^ (n - 1)).
  { rewrite <- Z.pow_succ_r by lia. f_equal. lia. }
  assert (Hpos : 0 < 2 ^ n) by (apply Z.pow_pos_nonneg; lia).
  assert (He0 : 0 < e) by nia.
  destruct (Z.eq_dec (e mod 2) 0) as [E | E].
  - right. apply Z.mod_divide in E; [| lia]. destruct E as [e' E].
    exists e'. nia.
  - left.
    assert (Hc : Z.coprime e (2 ^ n)).
    { apply Z.coprime_pow_r; [lia |]. symmetry.
      apply Z.coprime_prime_l; [exact Z.prime_2 |].
      intros H2. apply E. apply Z.mod_divide; [lia | exact H2]. }
    assert (He1 : (e | 1)).
    { unfold Z.coprime in Hc. rewrite <- Hc. apply Z.gcd_greatest.
      - apply Z.divide_refl.
      - exists d. lia. }
    apply Z.divide_1_r_nonneg in He1; [| lia]. subst e. lia.
Qed.

Lemma proth_divisor (N n k a q : Z) :
  1 <= n -> 0 < k -> N = k * 2 ^ n + 1 ->
  a ^ (k * 2 ^ (n - 1)) mod N = N - 1 ->
  Z.prime q -> (q | N) -> 2 ^ n < q.
Proof.
  intros Hn Hk HN Ha Hq Hdiv.
  pose proof (Z.prime_ge_2 _ Hq) as Hq2.
  assert (Hpow : 2 ^ n = 2 ^ (n - 1) * 2).
  { rewrite Z.mul_comm, <- Z.pow_succ_r by lia. f_equal. lia. }
  assert (Hpos : 0 < 2 ^ (n - 1)) by (apply Z.pow_pos_nonneg; lia).
  assert (HNpos : 1 < N) by nia.
  (* q is odd *)
  assert (Hq3 : 3 <= q).
  { destruct (Z.eq_dec q 2) as [E | E]; [| lia]. subst q.
    destruct Hdiv as [c Hc]. lia. }
  set (h := k * 2 ^ (n - 1)) in *.
  assert (Hh : 0 < h) by (unfold h; nia).
  (* the power of a is -1 modulo q *)
  assert (Hm1 : Zmod.pow (Zmod.of_Z q a) h = Zmod.opp Zmod.one).
  { rewrite <- Zmod.of_Z_pow by lia. rewrite <- Zmod.of_Z_m1.
    apply Zmod.of_Z_inj.
    rewrite <- (Z.mod_mod_divide (a ^ h) N q Hdiv).
    rewrite Ha. destruct Hdiv as [c Hc].
    replace (N - 1) with (-1 + c * q) by lia.
    apply Z_mod_plus_full. }
  (* a is invertible modulo q *)
  assert (Hcop : Z.coprime (Zmod.to_Z (Zmod.of_Z q a)) q).
  { rewrite Zmod.to_Z_of_Z. apply Z.coprime_mod_l_iff. symmetry.
    apply Z.coprime_prime_l; [exact Hq |]. intros Hqa.
    apply Z.mod_divide in Hqa; [| lia].
    assert (E0 : Zmod.of_Z q a = Zmod.zero).
    { rewrite <- Zmod.of_Z_0. apply Zmod.of_Z_inj. rewrite Hqa.
      symmetry. apply Zmod_0_l. }
    rewrite E0 in Hm1. rewrite Zmod.pow_0_l in Hm1 by lia.
    apply (f_equal Zmod.to_Z) in Hm1.
    rewrite Zmod.to_Z_0, Zmod.to_Z_opp, Zmod.to_Z_1 in Hm1 by lia.
    rewrite Z.mod_opp_l_nz in Hm1; rewrite ?Z.mod_1_l in *; lia. }
  set (A := Zstar.of_Zmod (Zmod.of_Z q a)).
  assert (HA : Zstar.to_Zmod A = Zmod.of_Z q a)
    by (apply Zstar.to_Zmod_of_Zmod; exact Hcop).
  set (B := Zstar.pow A k).
  assert (HB1 : Zstar.pow B (2 ^ (n - 1)) = Zstar.opp Zstar.one).
  { unfold B. rewrite <- Zstar.pow_mul_r. fold h.
    apply Zstar.to_Zmod_inj.
    rewrite Zstar.to_Zmod_pow, HA, Hm1, Zstar.to_Zmod_opp, Zstar.to_Zmod_1.
    reflexivity. }
  assert (HB2 : Zstar.pow B (2 ^ n) = Zstar.one).
  { rewrite Hpow, Zstar.pow_mul_r, HB1, Zstar.pow_opp_2, Zstar.pow_1_l.
    reflexivity. }
  assert (HB3 : Zstar.pow B (q - 1) = Zstar.one).
  { unfold B. rewrite <- Zstar.pow_mul_r, Z.mul_comm, Zstar.pow_mul_r.
    replace (q - 1) with (Z.pred q) by lia.
    rewrite Zstar.fermat by exact Hq. apply Zstar.pow_1_l. }
  set (d := Z.gcd (q - 1) (2 ^ n)).
  assert (HBd : Zstar.pow B d = Zstar.one).
  { destruct (Z.gcd_bezout (q - 1) (2 ^ n) d eq_refl) as [u [v Huv]].
    rewrite <- Huv.
    rewrite Zstar.pow_add_r.
    rewrite (Z.mul_comm u), (Z.mul_comm v), !Zstar.pow_mul_r.
    rewrite HB2, HB3, !Zstar.pow_1_l. apply Zstar.mul_1_l. }
  assert (Hd0 : 0 < d).
  { unfold d. pose proof (Z.gcd_nonneg (q - 1) (2 ^ n)).
    destruct (Z.eq_dec (Z.gcd (q - 1) (2 ^ n)) 0) as [E | E]; [| lia].
    apply Z.gcd_eq_0_l in E. lia. }
  destruct (divisor_of_pow2 d n Hn Hd0 (Z.gcd_divide_r _ _)) as [E | [e He]].
  - assert (Hdq : (d | q - 1)) by apply Z.gcd_divide_l.
    rewrite E in Hdq. apply Z.divide_pos_le in Hdq; lia.
  - exfalso. rewrite He, Z.mul_comm, Zstar.pow_mul_r, HBd, Zstar.pow_1_l in HB1.
    symmetry in HB1. revert HB1. apply Zstar.opp_1_neq_1. lia.
Qed.

(** Proth's criterion. *)
Theorem proth (N n k a : Z) :
  1 <= n -> 0 < k < 2 ^ n -> N = k * 2 ^ n + 1 ->
  a ^ (k * 2 ^ (n - 1)) mod N = N - 1 ->
  Z.prime N.
Proof.
  intros Hn Hk HN Ha.
  destruct (prime_dec N) as [Hp | Hp]; [apply prime_alt; exact Hp |].
  rewrite <- prime_alt in Hp.
  destruct (small_prime_divisor N ltac:(nia) Hp) as [q [Hq [Hdiv Hsq]]].
  pose proof (proth_divisor N n k a q Hn ltac:(lia) HN Ha Hq Hdiv).
  nia.
Qed.

Lemma prime256_prime : Z.prime prime256.
Proof.
  apply (proth prime256 248 207 5).
  - lia.
  - split; [reflexivity | vm_compute; reflexivity].
  - reflexivity.
  - rewrite <- Zpow_mod_correct by (intros H; discriminate H).
    vm_compute. reflexivity.
Qed.

Lemma prime_is_prime (p : Z) : Z.prime p -> is_prime p = true.
Proof.
  intros [H1 H2]. unfold is_prime. apply andb_true_intro. split.
  - apply Z.ltb_lt. exact H1.
  - apply forallb_forall. intros d Hd.
    apply in_map_iff in Hd. destruct Hd as [n [Hn Hin]].
    apply in_seq in Hin.
    apply negb_true_iff. apply Z.eqb_neq. intros Hmod.
    apply (H2 d); [lia |].
    apply Z.mod_divide; [lia | exact Hmod].
Qed.

(** [rand.Prime] on a tape that starts with a prime of the bit length
    asked for. *)
Lemma rand_Prime_draw (bits p : Z) (rest : list Z) (out : list string) :
  2 <= bits -> Z.prime p -> 3 * 2 ^ (bits - 2) <= p < 2 ^ bits ->
  rand_Prime bits (World (p :: rest) out) = Val (Some p, World rest out).
Proof.
  intros Hb Hp [Hlo Hhi]. unfold rand_Prime.
  cbv beta iota delta [tape stdout].
  destruct (Z.ltb_spec bits 2) as [H | _]; [lia |].
  rewrite (prime_is_prime p Hp).
  destruct (Z.leb_spec (3 * 2 ^ (bits - 2)) p) as [_ | H]; [| lia].
  destruct (Z.ltb_spec p (2 ^ bits)) as [_ | H]; [| lia].
  reflexivity.
Qed.

Lemma rand_Prime_256_draw (rest : list Z) (out : list string) :
  rand_Prime 256 (World (prime256 :: rest) out)
  = Val (Some prime256, World rest out).
Proof.
  apply rand_Prime_draw.
  - lia.
  - exact prime256_prime.
  - split; [vm_compute; intros H; discriminate H | vm_compute; reflexivity].
Qed.

(** What [rand.Prime] has read when it returns a prime. *)
Lemma rand_Prime_inv_tape (bits p : Z) (w w' : world) :
  rand_Prime bits w = Val (Some p, w') ->
  tape w = p :: tape w' /\ stdout w' = stdout w /\
  3 * 2 ^ (bits - 2) <= p /\ 2 <= bits.
Proof.
  unfold rand_Prime.
  destruct (Z.ltb_spec bits 2) as [Hb | Hb];
    [intros H; discriminate H |].
  destruct (tape w) as [| v t]; [intros H; discriminate H |].
  destruct (is_prime v);
    [| cbv beta iota delta [andb]; intros H; discriminate H].
  destruct (Z.leb_spec (3 * 2 ^ (bits - 2)) v) as [Hlo | Hlo];
    [| cbv beta iota delta [andb]; intros H; discriminate H].
  destruct (v <? 2 ^ bits);
    [| cbv beta iota delta [andb]; intros H; discriminate H].
  cbv beta iota delta [andb]. intros H.
  apply Val_inj in H. injection H as Hp Hw. subst v w'.
  cbv beta iota delta [tape stdout]. repeat split; try reflexivity; lia.
Qed.

(** A run of [generateMultiplicativeGroup] that returns. *)
Lemma generateMultiplicativeGroup_inv (fuel : nat) (bits p g : Z)
  (w w' : world) :
  generateMultiplicativeGroup fuel bits w = Val ((p, g), w') ->
  rand_Prime bits w = Val (Some p, w') /\ g = 2.
Proof.
  intros H.
  destruct (rand_Prime_cases bits w) as [[p0 [w0 H0]] | [w0 H0]].
  - destruct fuel as [| fuel].
    + unfold generateMultiplicativeGroup in H.
      erewrite bind_Val in H by (unfold must, bind; rewrite H0; reflexivity).
      discriminate H.
    + rewrite (generateMultiplicativeGroup_value fuel bits p0 w w0 H0) in H.
      apply Val_inj in H. injection H as Hp Hg Hw. subst p0 g w0.
      split; [exact H0 | reflexivity].
  - rewrite (generateMultiplicativeGroup_error fuel bits w w0 H0) in H.
    discriminate H.
Qed.

(* ================================================================= *)
(** ** GenerateKeys: the keys returned and the failures *)

(** Splits the conjunctions that are written in the goal. *)
Ltac split_all :=
  repeat match goal with |- _ /\ _ => split end.

Lemma rand_Int_cases (max : Z) (w : world) :
  0 < max ->
  (exists (v : Z) (w' : world), must (rand_Int max) w = Val (v, w')) \/
  must (rand_Int max) w = Throw RandError.
Proof.
  intros Hmax. unfold must, bind, rand_Int.
  destruct (Z.leb_spec max 0) as [H | _]; [lia |].
  destruct (tape w) as [| v t]; [right; reflexivity |].
  destruct ((0 <=? v) && (v <? max)).
  - left. do 2 eexists. reflexivity.
  - right. reflexivity.
Qed.

(** Everything a returning run of [GenerateKeys] fixes. *)
Lemma GenerateKeys_inv (fuel : nat) (w w' : world) (sk : SignatureKey.t)
  (pk : PublicKey.t) :
  GenerateKeys fuel w = Val ((sk, pk), w') ->
  exists p x : Z,
    sk = SignatureKey.mk p 2 x /\ pk = PublicKey.mk p 2 (x * 2) /\
    Z.prime p /\ 3 * 2 ^ 254 <= p < 2 ^ 256 /\ 0 <= x < p /\
    tape w = p :: x :: tape w' /\ stdout w' = stdout w.
Proof.
  unfold GenerateKeys. intros H.
  apply bind_inv in H. destruct H as [[p g] [w1 [Hg H]]].
  apply generateMultiplicativeGroup_inv in Hg. destruct Hg as [Hp Hg2].
  subst g. cbv beta iota in H.
  apply bind_inv in H. destruct H as [x [w2 [Hx H]]].
  apply rand_Int_inv in Hx. destruct Hx as [Hx [rest [Ht Hw2]]].
  cbv beta zeta delta [ret] in H. apply Val_inj in H.
  injection H as Hsk Hpk Hw. subst sk pk w' w2.
  destruct (rand_Prime_inv _ _ _ _ Hp) as [Hprime [_ Hhi]].
  destruct (rand_Prime_inv_tape _ _ _ _ Hp) as [Htape [Hout [Hlo _]]].
  change (256 - 2) with 254 in Hlo.
  exists p, x. cbn [tape stdout].
  rewrite Htape, Ht, Hout.
  split_all; try assumption; try reflexivity; lia.
Qed.

Lemma GenerateKeys_prime256 (x : Z) (rest : list Z) (out : list string) :
  0 <= x < prime256 ->
  GenerateKeys 1 (World (prime256 :: x :: rest) out) =
  Val ((SignatureKey.mk prime256 2 x, PublicKey.mk prime256 2 (x * 2)),
       World rest out).
Proof.
  intros Hx.
  apply (GenerateKeys_value 0 prime256 x _ (World (x :: rest) out) rest).
  - apply rand_Prime_256_draw.
  - reflexivity.
  - exact Hx.
Qed.

(** The keys that [GenerateKeys] returns: one group for both keys, of
    prime order [p] of 256 bits, the generator 2, a private key [x] in
    [[0, p)] and the public key [X = x * 2] (the product in the
    integers, not reduced).  The order and the private key are the two
    values read from [crypto/rand], and nothing is printed. *)
Theorem GenerateKeys_keys (fuel : nat) (w w' : world)
  (sk : SignatureKey.t) (pk : PublicKey.t) :
  GenerateKeys fuel w = Val ((sk, pk), w') ->
  PublicKey.p pk = SignatureKey.p sk /\
  PublicKey.g pk = 2 /\ SignatureKey.g sk = 2 /\
  PublicKey.X pk = SignatureKey.x sk * 2 /\
  Z.prime (SignatureKey.p sk) /\
  3 * 2 ^ 254 <= SignatureKey.p sk < 2 ^ 256 /\
  0 <= SignatureKey.x sk < SignatureKey.p sk /\
  tape w = SignatureKey.p sk :: SignatureKey.x sk :: tape w' /\
  stdout w' = stdout w.
Proof.
  intros H. apply GenerateKeys_inv in H.
  destruct H as [p [x [Hsk [Hpk [Hp [Hr [Hx [Ht Ho]]]]]]]].
  subst sk pk.
  cbv beta iota delta [PublicKey.p PublicKey.g PublicKey.X
                       SignatureKey.p SignatureKey.g SignatureKey.x].
  split_all; try assumption; try reflexivity; lia.
Qed.

Lemma GenerateKeys_keys_witness :
  GenerateKeys 1 (World [prime256; 42] []) =
  Val ((SignatureKey.mk prime256 2 42, PublicKey.mk prime256 2 (42 * 2)),
       World [] []) /\
  PublicKey.X (PublicKey.mk prime256 2 (42 * 2))
  = SignatureKey.x (SignatureKey.mk prime256 2 42) * 2.
Proof.
  assert (H : GenerateKeys 1 (World [prime256; 42] []) =
              Val ((SignatureKey.mk prime256 2 42,
                    PublicKey.mk prime256 2 (42 * 2)), World [] [])).
  { apply GenerateKeys_prime256. split; [lia | reflexivity]. }
  split; [exact H |].
  exact (proj1 (proj2 (proj2 (proj2 (GenerateKeys_keys _ _ _ _ _ H))))).
Defined.

(** The public key gives the private key away: [X] is the product of
    [x] and [g] in the integers, so [x = X / g]. *)
Theorem GenerateKeys_private_key_is_quotient (fuel : nat) (w w' : world)
  (sk : SignatureKey.t) (pk : PublicKey.t) :
  GenerateKeys fuel w = Val ((sk, pk), w') ->
  SignatureKey.x sk = PublicKey.X pk / PublicKey.g pk.
Proof.
  intros H. apply GenerateKeys_inv in H.
  destruct H as [p [x [Hsk [Hpk _]]]]. subst sk pk.
  cbv beta iota delta [PublicKey.g PublicKey.X SignatureKey.x].
  symmetry. apply Z.div_mul. lia.
Qed.

Lemma GenerateKeys_private_key_is_quotient_witness :
  SignatureKey.x (SignatureKey.mk prime256 2 42)
  = PublicKey.X (PublicKey.mk prime256 2 (42 * 2))
    / PublicKey.g (PublicKey.mk prime256 2 (42 * 2)).
Proof.
  apply (GenerateKeys_private_key_is_quotient
           1 (World [prime256; 42] []) (World [] [])).
  apply GenerateKeys_prime256. split; [lia | reflexivity].
Defined.

Lemma GenerateKeys_cases (fuel : nat) (w : world) :
  (exists (sk : SignatureKey.t) (pk : PublicKey.t) (w' : world),
     GenerateKeys (S fuel) w = Val ((sk, pk), w')) \/
  GenerateKeys (S fuel) w = Throw RandError.
Proof.
  unfold GenerateKeys.
  destruct (rand_Prime_cases 256 w) as [[p [w1 Hp]] | [w1 Hp]].
  - erewrite bind_Val by (apply generateMultiplicativeGroup_value; exact Hp).
    cbv beta iota.
    destruct (rand_Prime_inv _ _ _ _ Hp) as [_ [H2 _]].
    destruct (rand_Int_cases p w1 ltac:(lia)) as [[x [w2 Hx]] | Hx].
    + left. erewrite bind_Val by exact Hx. do 3 eexists. reflexivity.
    + right. unfold bind at 1. rewrite Hx. reflexivity.
  - right. unfold bind at 1.
    rewrite (generateMultiplicativeGroup_error _ _ _ _ Hp). reflexivity.
Qed.

(** [GenerateKeys] fails in one way only: it panics with the error of
    [crypto/rand].  With a loop budget of one iteration at least it
    never runs out of budget, never divides by zero and never calls
    [rand.Int] with an argument that is not positive. *)
Theorem GenerateKeys_outcomes (fuel : nat) (w : world) :
  (exists (sk : SignatureKey.t) (pk : PublicKey.t) (w' : world),
     GenerateKeys (S fuel) w = Val ((sk, pk), w')) \/
  GenerateKeys (S fuel) w = Throw RandError.
Proof. exact (GenerateKeys_cases fuel w). Qed.

(* ================================================================= *)
(** ** Sign: the signature returned and the failures *)

(** A run of [Sign] that returns. *)
Lemma Sign_inv (m : string) (sk : SignatureKey.t) (w w' : world)
  (sig : Signature.t) :
  Sign m sk w = Val (sig, w') ->
  exists r : Z,
    0 <= r < SignatureKey.p sk /\
    tape w = r :: tape w' /\ stdout w' = stdout w /\
    sig = Signature.mk
            (r * SignatureKey.g sk)
            ((r + challenge (r * SignatureKey.g sk) m * SignatureKey.x sk)
             mod SignatureKey.p sk).
Proof.
  intros H. pose proof H as H0. unfold Sign in H0.
  apply bind_inv in H0. destruct H0 as [r [w1 [Hr _]]].
  apply rand_Int_inv in Hr. destruct Hr as [Hr [rest [Ht Hw1]]].
  destruct w as [tp so]. cbn [tape stdout] in Ht, Hw1. subst tp.
  rewrite (Sign_value m sk r rest so Hr) in H.
  apply Val_inj in H. injection H as Hsig Hw'. subst sig w'.
  exists r. cbn [tape stdout]. split_all; try reflexivity; lia.
Qed.

(** Every signature that [Sign] returns has a commitment [R = r * g]
    for the nonce [r] read from [crypto/rand], [0 <= r < p], and a
    response reduced into [[0, p)]; [Sign] reads that one value and
    prints nothing. *)
Theorem Sign_signature_in_range (m : string) (sk : SignatureKey.t)
  (w w' : world) (sig : Signature.t) :
  Sign m sk w = Val (sig, w') ->
  0 <= Signature.s sig < SignatureKey.p sk /\
  stdout w' = stdout w /\
  exists r : Z,
    0 <= r < SignatureKey.p sk /\ tape w = r :: tape w' /\
    Signature.R sig = r * SignatureKey.g sk.
Proof.
  intros H. apply Sign_inv in H.
  destruct H as [r [Hr [Ht [Ho Hsig]]]]. subst sig.
  cbv beta iota delta [Signature.R Signature.s].
  split; [apply Z.mod_pos_bound; lia |].
  split; [exact Ho |].
  exists r. split_all; try assumption; try reflexivity; lia.
Qed.

Lemma Sign_signature_in_range_witness :
  0 <= Signature.s (Signature.mk 35 17) < SignatureKey.p sk23.
Proof.
  apply (Sign_signature_in_range "hello" sk23 (World [7] []) (World [] [])).
  vm_compute. reflexivity.
Defined.

Lemma Sign_cases (m : string) (sk : SignatureKey.t) (w : world) :
  (SignatureKey.p sk <= 0 /\ Sign m sk w = Throw RandArgument) \/
  (0 < SignatureKey.p sk /\
   ~ (exists (r : Z) (rest : list Z),
        tape w = r :: rest /\ 0 <= r < SignatureKey.p sk) /\
   Sign m sk w = Throw RandError) \/
  (0 < SignatureKey.p sk /\
   exists (r : Z) (rest : list Z) (sig : Signature.t),
     tape w = r :: rest /\ 0 <= r < SignatureKey.p sk /\
     Sign m sk w = Val (sig, World rest (stdout w))).
Proof.
  destruct (Z.leb_spec (SignatureKey.p sk) 0) as [Hp | Hp].
  - left. split; [exact Hp |].
    unfold Sign, must, bind, rand_Int.
    destruct (Z.leb_spec (SignatureKey.p sk) 0) as [_ | H]; [| lia].
    reflexivity.
  - right. destruct w as [[| r rest] so].
    + left. split; [exact Hp |]. split.
      * intros [r [rest [H _]]]. discriminate H.
      * unfold Sign, must, bind, rand_Int. cbn [tape stdout].
        destruct (Z.leb_spec (SignatureKey.p sk) 0) as [H | _]; [lia |].
        reflexivity.
    + destruct (Z_le_dec 0 r) as [H0 | H0];
        [destruct (Z_lt_dec r (SignatureKey.p sk)) as [H1 | H1] |].
      * right. split; [exact Hp |]. exists r, rest. eexists.
        cbn [tape stdout]. split; [reflexivity |]. split; [lia |].
        apply Sign_value. lia.
      * left. split; [exact Hp |]. split.
        { intros [r' [rest' [H Hr']]]. cbn [tape] in H.
          injection H as H _. lia. }
        unfold Sign, must, bind, rand_Int. cbn [tape stdout].
        destruct (Z.leb_spec (SignatureKey.p sk) 0) as [H | _]; [lia |].
        destruct (Z.leb_spec 0 r) as [_ | H]; [| lia].
        destruct (Z.ltb_spec r (SignatureKey.p sk)) as [H | _]; [lia |].
        reflexivity.
      * left. split; [exact Hp |]. split.
        { intros [r' [rest' [H Hr']]]. cbn [tape] in H.
          injection H as H _. lia. }
        unfold Sign, must, bind, rand_Int. cbn [tape stdout].
        destruct (Z.leb_spec (SignatureKey.p sk) 0) as [H | _]; [lia |].
        destruct (Z.leb_spec 0 r) as [H | _]; [lia |].
        reflexivity.
Qed.


(** Two signatures made with the same nonce give the private key
    away: for a prime order, [x = (s1 - s2) / (c1 - c2) mod p] as soon
    as the two challenges differ modulo [p]. *)
Theorem Sign_nonce_reuse_reveals_key (m1 m2 : string)
  (sk : SignatureKey.t) (r : Z) (rest1 rest2 : list Z)
  (out1 out2 : list string) (sig1 sig2 : Signature.t) (w1 w2 : world) :
  Sign m1 sk (World (r :: rest1) out1) = Val (sig1, w1) ->
  Sign m2 sk (World (r :: rest2) out2) = Val (sig2, w2) ->
  Z.prime (SignatureKey.p sk) ->
  0 <= SignatureKey.x sk < SignatureKey.p sk ->
  (challenge (Signature.R sig1) m1 - challenge (Signature.R sig2) m2)
    mod SignatureKey.p sk <> 0 ->
  SignatureKey.x sk =
  ((Signature.s sig1 - Signature.s sig2)
   * Z.invmod (challenge (Signature.R sig1) m1
               - challenge (Signature.R sig2) m2) (SignatureKey.p sk))
    mod SignatureKey.p sk.
Proof.
  intros H1 H2 Hp Hx.
  apply Sign_inv in H1. destruct H1 as [r1 [Hr1 [Ht1 [_ Hs1]]]].
  apply Sign_inv in H2. destruct H2 as [r2 [Hr2 [Ht2 [_ Hs2]]]].
  cbn [tape] in Ht1, Ht2.
  injection Ht1 as E1 _. injection Ht2 as E2 _. subst r1 r2 sig1 sig2.
  cbv beta iota delta [Signature.R Signature.s].
  generalize (challenge (r * SignatureKey.g sk) m1).
  generalize (challenge (r * SignatureKey.g sk) m2).
  intros c2 c1 Hc.
  set (p := SignatureKey.p sk) in *. set (x := SignatureKey.x sk) in *.
  pose proof (Z.invmod_prime (c1 - c2) p Hp Hc) as Hinv.
  rewrite <- Zmult_mod_idemp_l, <- Zminus_mod, Zmult_mod_idemp_l.
  replace ((r + c1 * x - (r + c2 * x)) * Z.invmod (c1 - c2) p)
    with (x * (Z.invmod (c1 - c2) p * (c1 - c2))) by ring.
  rewrite <- Zmult_mod_idemp_r, Hinv, Z.mul_1_r.
  symmetry. apply Z.mod_small. exact Hx.
Qed.

Lemma prime_23 : Z.prime 23.
Proof. apply is_prime_prime. vm_compute. reflexivity. Qed.

Lemma Sign_nonce_reuse_reveals_key_witness :
  exists sig1 sig2 : Signature.t,
    Sign "hello" sk23 (World [7] []) = Val (sig1, World [] []) /\
    Sign "world" sk23 (World [7] []) = Val (sig2, World [] []) /\
    SignatureKey.x sk23 =
    ((Signature.s sig1 - Signature.s sig2)
     * Z.invmod (challenge (Signature.R sig1) "hello"
                 - challenge (Signature.R sig2) "world")
                (SignatureKey.p sk23))
      mod SignatureKey.p sk23.
Proof.
  do 2 eexists.
  split; [vm_compute; reflexivity |].
  split; [vm_compute; reflexivity |].
  eapply (Sign_nonce_reuse_reveals_key "hello" "world" sk23 7 [] [] [] []).
  - vm_compute. reflexivity.
  - vm_compute. reflexivity.
  - exact prime_23.
  - cbn. lia.
  - vm_compute. intros H. discriminate H.
Defined.

(* ================================================================= *)
(** ** VerifySignature: what it accepts *)

(** A signature can be computed from the public key alone: when the
    generator is invertible modulo the order, for every message and
    every commitment [R] the response [(R + c*X) / g mod p] is
    accepted. *)
Theorem VerifySignature_forged_signature (m : string) (R : Z)
  (pk : PublicKey.t) :
  1 < PublicKey.p pk ->
  Z.coprime (PublicKey.g pk) (PublicKey.p pk) ->
  VerifySignature m
    (Signature.mk R
       (((R + challenge R m * PublicKey.X pk)
         * Z.invmod (PublicKey.g pk) (PublicKey.p pk))
        mod PublicKey.p pk))
    pk = Val true.
Proof.
  intros Hp Hg. rewrite VerifySignature_unfold.
  cbv beta iota delta [Signature.R Signature.s].
  generalize (challenge R m). intros c.
  destruct (Z.eqb_spec (PublicKey.p pk) 0) as [E | _]; [lia |].
  rewrite Z.abs_eq by lia.
  pose proof (Z.invmod_coprime (PublicKey.g pk) (PublicKey.p pk)
                ltac:(lia) Hg) as Hinv.
  rewrite Zmult_mod_idemp_l, <- Z.mul_assoc, <- Zmult_mod_idemp_r.
  rewrite Hinv, Z.mul_1_r, Z.eqb_refl. reflexivity.
Qed.

Lemma VerifySignature_forged_signature_witness :
  VerifySignature "hello"
    (Signature.mk 1000
       (((1000 + challenge 1000 "hello" * PublicKey.X pk23)
         * Z.invmod (PublicKey.g pk23) (PublicKey.p pk23))
        mod PublicKey.p pk23))
    pk23 = Val true.
Proof.
  apply (VerifySignature_forged_signature "hello" 1000 pk23).
  - cbn. lia.
  - vm_compute. reflexivity.
Defined.

(** The keys of [GenerateKeys] are forgeable: whoever holds the public
    key signs every message, with any commitment. *)
Theorem GenerateKeys_signature_forged_from_public_key (fuel : nat)
  (w w' : world) (sk : SignatureKey.t) (pk : PublicKey.t) (m : string)
  (R : Z) :
  GenerateKeys fuel w = Val ((sk, pk), w') ->
  VerifySignature m
    (Signature.mk R
       (((R + challenge R m * PublicKey.X pk)
         * Z.invmod (PublicKey.g pk) (PublicKey.p pk))
        mod PublicKey.p pk))
    pk = Val true.
Proof.
  intros H. apply GenerateKeys_inv in H.
  destruct H as [p [x [_ [Hpk [Hp [Hr [_ _]]]]]]]. subst pk.
  pose proof (Z.prime_ge_2 _ Hp) as H2.
  assert (H3 : 2 < p).
  { assert (0 < 2 ^ 254) by (apply Z.pow_pos_nonneg; lia). lia. }
  rewrite VerifySignature_unfold.
  cbv beta iota delta [Signature.R Signature.s
                       PublicKey.p PublicKey.g PublicKey.X].
  generalize (challenge R m). intros c.
  destruct (Z.eqb_spec p 0) as [E | _]; [lia |].
  rewrite Z.abs_eq by lia.
  assert (Hg : Z.coprime 2 p).
  { symmetry. apply Z.coprime_prime_small; [exact Hp | lia]. }
  pose proof (Z.invmod_coprime 2 p ltac:(lia) Hg) as Hinv.
  rewrite Zmult_mod_idemp_l, <- Z.mul_assoc, <- Zmult_mod_idemp_r.
  rewrite Hinv, Z.mul_1_r, Z.eqb_refl. reflexivity.
Qed.

Lemma GenerateKeys_signature_forged_from_public_key_witness :
  VerifySignature "hello"
    (Signature.mk 0
       (((0 + challenge 0 "hello"
              * PublicKey.X (PublicKey.mk prime256 2 (42 * 2)))
         * Z.invmod (PublicKey.g (PublicKey.mk prime256 2 (42 * 2)))
                    (PublicKey.p (PublicKey.mk prime256 2 (42 * 2))))
        mod PublicKey.p (PublicKey.mk prime256 2 (42 * 2))))
    (PublicKey.mk prime256 2 (42 * 2)) = Val true.
Proof.
  apply (GenerateKeys_signature_forged_from_public_key
           1 (World [prime256; 42] []) (World [] [])
           (SignatureKey.mk prime256 2 42)).
  apply GenerateKeys_prime256. split; [lia | reflexivity].
Defined.

Lemma eqb_mod_sub (a b p : Z) :
  (a mod p =? b mod p) = ((a - b) mod p =? 0).
Proof.
  destruct (Z.eqb_spec (a mod p) (b mod p)) as [E | E];
    destruct (Z.eqb_spec ((a - b) mod p) 0) as [F | F];
    try reflexivity; exfalso.
  - apply F. apply Z.cong_iff_0. exact E.
  - apply E. apply Z.cong_iff_0. exact F.
Qed.

(** A signature of [Sign] under another public key of the same group:
    it is accepted exactly when [p] divides [c * (x*g - X')].  The
    public key of the signer is the case [X' = x * g]. *)
Theorem Sign_then_VerifySignature_other_key (m : string)
  (sk : SignatureKey.t) (X' r : Z) (rest : list Z) (out : list string) :
  0 <= r < SignatureKey.p sk ->
  exists sig : Signature.t,
    Sign m sk (World (r :: rest) out) = Val (sig, World rest out) /\
    VerifySignature m sig
      (PublicKey.mk (SignatureKey.p sk) (SignatureKey.g sk) X') =
    Val ((challenge (r * SignatureKey.g sk) m
          * (SignatureKey.x sk * SignatureKey.g sk - X'))
         mod SignatureKey.p sk =? 0).
Proof.
  intros Hr. eexists. split; [apply Sign_value; exact Hr |].
  rewrite VerifySignature_unfold.
  cbv beta iota delta [PublicKey.p PublicKey.g PublicKey.X
                       Signature.R Signature.s].
  generalize (challenge (r * SignatureKey.g sk) m). intros c.
  destruct (Z.eqb_spec (SignatureKey.p sk) 0) as [E | _]; [lia |].
  rewrite Z.abs_eq by lia.
  rewrite Zmult_mod_idemp_l, eqb_mod_sub.
  do 3 f_equal. ring.
Qed.

Lemma Sign_then_VerifySignature_other_key_witness :
  exists sig : Signature.t,
    Sign "hello" sk23 (World [7] []) = Val (sig, World [] []) /\
    VerifySignature "hello" sig
      (PublicKey.mk (SignatureKey.p sk23) (SignatureKey.g sk23) 31) =
    Val ((challenge (7 * SignatureKey.g sk23) "hello"
          * (SignatureKey.x sk23 * SignatureKey.g sk23 - 31))
         mod SignatureKey.p sk23 =? 0).
Proof.
  apply (Sign_then_VerifySignature_other_key "hello" sk23 31 7 [] []).
  cbn. lia.
Defined.

(** [VerifySignature] reads the generator and the public key modulo
    the order, and the order up to its sign. *)
Theorem VerifySignature_key_modulo_order (m : string)
  (sig : Signature.t) (p g X i j : Z) :
  VerifySignature m sig (PublicKey.mk p (g + i * p) (X + j * p)) =
  VerifySignature m sig (PublicKey.mk p g X) /\
  VerifySignature m sig (PublicKey.mk (- p) g X) =
  VerifySignature m sig (PublicKey.mk p g X).
Proof.
  rewrite !VerifySignature_unfold.
  cbv beta iota delta [PublicKey.p PublicKey.g PublicKey.X].
  generalize (challenge (Signature.R sig) m). intros c.
  split.
  - destruct (p =? 0); [reflexivity |].
    replace (Signature.s sig * (g + i * p))
      with (Signature.s sig * g + (Signature.s sig * i) * p) by ring.
    replace (Signature.R sig + c * (X + j * p))
      with (Signature.R sig + c * X + (c * j) * p) by ring.
    rewrite !mod_abs_add_multiple. reflexivity.
  - rewrite Z.abs_opp.
    destruct (Z.eqb_spec p 0) as [E | E];
      destruct (Z.eqb_spec (- p) 0) as [F | F]; try reflexivity; lia.
Qed.

(* ================================================================= *)
(** ** BlindSignatureProcess: keys that do not match, ranges, panics *)

Lemma blind_check_congruence (p g x X r c : Z) :
  (((c * x + r) mod p * g) mod p =? (r * g + c * X) mod p)
  = ((c * (x * g - X)) mod p =? 0).
Proof.
  rewrite Zmult_mod_idemp_l, eqb_mod_sub. do 2 f_equal. ring.
Qed.

Lemma blind_unblind_congruence (p g x X r a b cp : Z) :
  (((cp + b) mod p) * (x * g - X)) mod p = 0 ->
  ((((cp + b) mod p * x + r) mod p + a) mod p * g) mod p =
  (r * g + a * g + b * X + cp * X) mod p.
Proof.
  intros H.
  rewrite Zmult_mod_idemp_l.
  rewrite <- Zmult_mod_idemp_l, Zplus_mod_idemp_l, Zmult_mod_idemp_l.
  apply Z.cong_iff_0.
  replace (((cp + b) mod p * x + r + a) * g
           - (r * g + a * g + b * X + cp * X))
    with ((cp + b) mod p * (x * g) - (cp + b) * X) by ring.
  rewrite Zminus_mod, <- (Zmult_mod_idemp_l (cp + b) X), <- Zminus_mod.
  rewrite <- Z.mul_sub_distr_l. exact H.
Qed.

(** With a signature key and a public key of the same order the run
    is decided by one congruence: when [p] divides [c * (x*g - X)] the
    two signatures are reported valid, otherwise the signature of the
    Signer is reported invalid and the run stops.  A signature of the
    User that is built is never reported invalid: unblinding keeps
    validity. *)
Theorem BlindSignatureProcess_same_order (message : string)
  (sk : SignatureKey.t) (pk : PublicKey.t) (r a b : Z) (rest : list Z)
  (out : list string) :
  SignatureKey.p sk = PublicKey.p pk ->
  0 <= r < PublicKey.p pk ->
  0 <= a < PublicKey.p pk ->
  0 <= b < PublicKey.p pk ->
  let RP := r * PublicKey.g pk + a * PublicKey.g pk + b * PublicKey.X pk in
  let c := (challenge RP message + b) mod PublicKey.p pk in
  let good :=
    (c * (SignatureKey.x sk * PublicKey.g pk - PublicKey.X pk))
      mod PublicKey.p pk =? 0 in
  exists l : BlindLocals,
    BlindSignatureProcess message sk pk (World (r :: a :: b :: rest) out) =
    Val (l, World rest
              (out ++ if good
                      then ["### Blind Schnorr Signature ###"%string;
                            "Signature received from Signer by User is valid!"%string;
                            "Signature created by User is valid!"%string]
                      else ["### Blind Schnorr Signature ###"%string;
                            "Signature received from Signer by User is invalid!"%string]))
    /\ l_c l = c
    /\ (good = true <-> l_userSignature l <> None).
Proof.
  intros Hsk Hr Ha Hb RP c good.
  pose proof (BlindSignatureProcess_run message sk pk r a b rest out
                Hr Ha Hb ltac:(lia)) as Hrun.
  cbv zeta in Hrun. rewrite Hsk in Hrun.
  rewrite Z.abs_eq in Hrun by lia.
  fold RP in Hrun. fold c in Hrun.
  rewrite blind_check_congruence in Hrun. fold good in Hrun.
  destruct good eqn:Hgood.
  - assert (E : ((((c * SignatureKey.x sk + r) mod PublicKey.p pk + a)
                  mod PublicKey.p pk * PublicKey.g pk) mod PublicKey.p pk
                 =? (RP + challenge RP message * PublicKey.X pk)
                    mod PublicKey.p pk) = true).
    { apply Z.eqb_eq. subst RP c.
      apply blind_unblind_congruence. apply Z.eqb_eq. exact Hgood. }
    rewrite E in Hrun.
    eexists. split; [rewrite Hrun, <- !app_assoc; reflexivity |].
    cbv beta iota delta [l_c l_userSignature].
    split; [reflexivity |].
    split; [intros _ H; discriminate H | reflexivity].
  - eexists. split; [rewrite Hrun, <- app_assoc; reflexivity |].
    cbv beta iota delta [l_c l_userSignature].
    split; [reflexivity |].
    split; [intros H; discriminate H | intros H; exfalso; apply H; reflexivity].
Qed.

Lemma BlindSignatureProcess_same_order_witness :
  exists l : BlindLocals,
    BlindSignatureProcess "hello" sk23 pk23_other (World [7; 3; 4] []) =
    Val (l, World []
              ["### Blind Schnorr Signature ###"%string;
               "Signature received from Signer by User is invalid!"%string]).
Proof.
  destruct (BlindSignatureProcess_same_order "hello" sk23 pk23_other
              7 3 4 [] []) as [l [Hl _]].
  - reflexivity.
  - cbn. lia.
  - cbn. lia.
  - cbn. lia.
  - exists l. rewrite Hl. vm_compute. reflexivity.
Defined.

(** The values of a run of [BlindSignatureProcess] that returns: the
    nonce and the blinding factors are the three values read from
    [crypto/rand], all in [[0, p)]; the challenge sent to the Signer
    and the response of the User's signature are reduced into
    [[0, p)]; the commitment of the User's signature is
    [R' = R + a*g + b*X]. *)
Theorem BlindSignatureProcess_values (message : string)
  (sk : SignatureKey.t) (pk : PublicKey.t) (w w' : world)
  (l : BlindLocals) :
  BlindSignatureProcess message sk pk w = Val (l, w') ->
  tape w = l_r l :: l_a l :: l_b l :: tape w' /\
  0 <= l_r l < PublicKey.p pk /\
  0 <= l_a l < PublicKey.p pk /\
  0 <= l_b l < PublicKey.p pk /\
  l_R l = l_r l * PublicKey.g pk /\
  l_RP l = l_R l + l_a l * PublicKey.g pk + l_b l * PublicKey.X pk /\
  l_c l = (challenge (l_RP l) message + l_b l) mod PublicKey.p pk /\
  0 <= l_c l < PublicKey.p pk /\
  0 <= l_s l < Z.abs (SignatureKey.p sk) /\
  forall sig : Signature.t,
    l_userSignature l = Some sig ->
    Signature.R sig = l_RP l /\
    Signature.s sig = (l_s l + l_a l) mod PublicKey.p pk /\
    0 <= Signature.s sig < PublicKey.p pk.
Proof.
  intros H.
  destruct (BlindSignatureProcess_inv _ _ _ _ _ _ H)
    as [r [a [b [rest [Hw [Hr [Ha [Hb Hsk]]]]]]]].
  rewrite Hw in H.
  rewrite (BlindSignatureProcess_run message sk pk r a b rest (stdout w)
             Hr Ha Hb Hsk) in H.
  cbv zeta in H. rewrite Hw.
  assert (Hp : 0 < PublicKey.p pk) by lia.
  assert (Hq : 0 < Z.abs (SignatureKey.p sk)) by lia.
  destruct (_ =? _) in H; apply Val_inj in H;
    injection H as Hl Hw'; subst l w';
    cbv beta iota delta [l_r l_a l_b l_R l_RP l_c l_s l_userSignature
                         tape];
    (split_all; try assumption; try reflexivity;
     try (apply Z.mod_pos_bound; assumption); try lia).
  - intros sig Hsig. injection Hsig as Hsig. subst sig.
    cbv beta iota delta [Signature.R Signature.s].
    split_all; try reflexivity; apply Z.mod_pos_bound; assumption.
  - intros sig Hsig. discriminate Hsig.
Qed.

Lemma BlindSignatureProcess_values_witness :
  exists (l : BlindLocals) (w' : world),
    BlindSignatureProcess "hello" sk23 pk23 (World [7; 3; 4] [])
    = Val (l, w') /\
    0 <= l_c l < PublicKey.p pk23 /\
    0 <= l_s l < Z.abs (SignatureKey.p sk23).
Proof.
  pose (l := Locals 7 35 3 4 170 (challenge 170 "hello") 0 7 12 12
               (Some (Signature.mk 170 10))).
  pose (w' := World []
                ["### Blind Schnorr Signature ###"%string;
                 "Signature received from Signer by User is valid!"%string;
                 "Signature created by User is valid!"%string]).
  assert (H : BlindSignatureProcess "hello" sk23 pk23 (World [7; 3; 4] [])
              = Val (l, w')) by (vm_compute; reflexivity).
  destruct (BlindSignatureProcess_values _ _ _ _ _ _ H)
    as [_ [_ [_ [_ [_ [_ [_ [Hc [Hs _]]]]]]]]].
  exists l, w'. split; [exact H |]. split; [exact Hc | exact Hs].
Defined.

Lemma BlindSignatureProcess_cases (message : string)
  (sk : SignatureKey.t) (pk : PublicKey.t) (w : world) :
  (PublicKey.p pk <= 0 /\
   BlindSignatureProcess message sk pk w = Throw RandArgument) \/
  (0 < PublicKey.p pk /\
   ~ (exists (r a b : Z) (rest : list Z),
        tape w = r :: a :: b :: rest /\
        0 <= r < PublicKey.p pk /\ 0 <= a < PublicKey.p pk /\
        0 <= b < PublicKey.p pk) /\
   BlindSignatureProcess message sk pk w = Throw RandError) \/
  (0 < PublicKey.p pk /\ SignatureKey.p sk = 0 /\
   BlindSignatureProcess message sk pk w = Throw DivisionByZero) \/
  (0 < PublicKey.p pk /\ SignatureKey.p sk <> 0 /\
   exists (l : BlindLocals) (w' : world),
     BlindSignatureProcess message sk pk w = Val (l, w')).
Proof.
  destruct (Z.leb_spec (PublicKey.p pk) 0) as [Hp | Hp].
  { left. split; [exact Hp |].
    unfold BlindSignatureProcess. rewrite bind_Println.
    unfold bind at 1. unfold must, bind, rand_Int.
    destruct (Z.leb_spec (PublicKey.p pk) 0) as [_ | H]; [| lia].
    reflexivity. }
  right.
  unfold BlindSignatureProcess. rewrite bind_Println.
  match goal with
  | |- context [bind (must (rand_Int _)) _ ?w0] =>
      destruct (rand_Int_cases (PublicKey.p pk) w0 Hp) as [[r [w1 H1]] | H1]
  end.
  2:{ left. split; [exact Hp |]. split.
      - intros [r [a [b [rest [Ht [Hr _]]]]]].
        rewrite Ht in H1. rewrite rand_Int_draw in H1 by exact Hr.
        discriminate H1.
      - unfold bind at 1. rewrite H1. reflexivity. }
  destruct (rand_Int_inv _ _ _ _ H1) as [Hr [t1 [Ht1 Hw1]]].
  cbn [tape stdout] in Ht1, Hw1.
  erewrite bind_Val by exact H1. cbv beta zeta.
  destruct (rand_Int_cases (PublicKey.p pk) w1 Hp) as [[a [w2 H2]] | H2].
  2:{ left. split; [exact Hp |]. split.
      - intros [r' [a [b [rest [Ht [_ [Ha _]]]]]]].
        rewrite Ht in Ht1. injection Ht1 as Er Et. subst r' t1.
        rewrite Hw1 in H2. rewrite rand_Int_draw in H2 by exact Ha.
        discriminate H2.
      - unfold bind at 1. rewrite H2. reflexivity. }
  destruct (rand_Int_inv _ _ _ _ H2) as [Ha [t2 [Ht2 Hw2]]].
  rewrite Hw1 in Ht2, Hw2. cbn [tape stdout] in Ht2, Hw2.
  erewrite bind_Val by exact H2.
  destruct (rand_Int_cases (PublicKey.p pk) w2 Hp) as [[b [w3 H3]] | H3].
  2:{ left. split; [exact Hp |]. split.
      - intros [r' [a' [b [rest [Ht [_ [_ Hb]]]]]]].
        rewrite Ht in Ht1. injection Ht1 as Er Et. subst r' t1.
        injection Ht2 as Ea Et. subst a' t2.
        rewrite Hw2 in H3. rewrite rand_Int_draw in H3 by exact Hb.
        discriminate H3.
      - unfold bind at 1. rewrite H3. reflexivity. }
  destruct (rand_Int_inv _ _ _ _ H3) as [Hb [t3 [Ht3 Hw3]]].
  rewrite Hw2 in Ht3, Hw3. cbn [tape stdout] in Ht3, Hw3.
  erewrite bind_Val by exact H3. cbv beta zeta.
  right.
  destruct (Z.eq_dec (SignatureKey.p sk) 0) as [Hsk | Hsk].
  - left. split; [exact Hp |]. split; [exact Hsk |].
    step_Mod. rewrite Hsk, Mod_zero. reflexivity.
  - right. split; [exact Hp |]. split; [exact Hsk |].
    assert (Hw : w = World (r :: a :: b :: t3) (stdout w)).
    { destruct w as [tp so]. cbn [tape stdout] in *.
      subst tp t1 t2. reflexivity. }
    pose proof (BlindSignatureProcess_run message sk pk r a b t3 (stdout w)
                  Hr Ha Hb Hsk) as Hrun.
    cbv zeta in Hrun. rewrite <- Hw in Hrun.
    unfold BlindSignatureProcess in Hrun. rewrite bind_Println in Hrun.
    erewrite bind_Val in Hrun by exact H1. cbv beta zeta in Hrun.
    erewrite bind_Val in Hrun by exact H2.
    erewrite bind_Val in Hrun by exact H3. cbv beta zeta in Hrun.
    rewrite Hrun.
    destruct (_ =? _); do 2 eexists; reflexivity.
Qed.


(* ================================================================= *)
(** ** main: the demonstration from end to end *)

Lemma bind_Println2 {B : Type} (a b : string) (k : unit -> M B)
  (w : world) :
  bind (Println2 a b) k w
  = k tt (World (tape w) (stdout w ++ [(a ++ " " ++ b)%string])).
Proof. reflexivity. Qed.

Lemma bind_Throw {A B : Type} (m : M A) (k : A -> M B) (w : world)
  (e : panic) :
  m w = Throw e -> bind m k w = Throw e.
Proof. intros H. unfold bind. rewrite H. reflexivity. Qed.

(** The blind protocol between a signer and a user who holds the
    public key of that signer. *)
Lemma BlindSignatureProcess_honest (message : string)
  (sk : SignatureKey.t) (r a b : Z) (rest : list Z) (out : list string) :
  0 <= r < SignatureKey.p sk ->
  0 <= a < SignatureKey.p sk ->
  0 <= b < SignatureKey.p sk ->
  exists l : BlindLocals,
    BlindSignatureProcess message sk (public_of sk)
      (World (r :: a :: b :: rest) out) =
    Val (l, World rest
              (out ++ ["### Blind Schnorr Signature ###"%string;
                       "Signature received from Signer by User is valid!"%string;
                       "Signature created by User is valid!"%string])).
Proof.
  intros Hr Ha Hb.
  pose proof (BlindSignatureProcess_run message sk (public_of sk) r a b
                rest out Hr Ha Hb ltac:(lia)) as Hrun.
  cbv zeta in Hrun.
  cbv beta iota delta [public_of PublicKey.p PublicKey.g PublicKey.X] in Hrun.
  rewrite Z.abs_eq in Hrun by lia.
  set (p := SignatureKey.p sk) in *.
  set (g := SignatureKey.g sk) in *.
  set (x := SignatureKey.x sk) in *.
  set (cp := challenge (r * g + a * g + b * (x * g)) message) in *.
  rewrite (blind_check_congruence p g x (x * g) r ((cp + b) mod p)) in Hrun.
  rewrite Z.sub_diag, Z.mul_0_r, Zmod_0_l, Z.eqb_refl in Hrun.
  rewrite (blind_unblind_congruence p g x (x * g) r a b cp) in Hrun
    by (rewrite Z.sub_diag, Z.mul_0_r; apply Zmod_0_l).
  rewrite Z.eqb_refl in Hrun.
  unfold public_of. fold p g x. eexists.
  rewrite Hrun, <- !app_assoc. reflexivity.
Qed.

Lemma bind_ext {A B : Type} (m : M A) (k1 k2 : A -> M B) (w : world) :
  (forall (a : A) (w' : world), k1 a w' = k2 a w') ->
  bind m k1 w = bind m k2 w.
Proof.
  intros H. unfold bind. destruct (m w) as [[a w'] | e |];
    cbv beta iota delta [rbind fst snd]; [apply H | reflexivity ..].
Qed.

(** [main] is its two first lines, [GenerateKeys] and [main_tail]. *)
Lemma main_unfold (fuel : nat) (w : world) :
  main fuel w =
  (keys <- GenerateKeys fuel ;;
   main_tail (fst keys) (snd keys))
    (World (tape w)
       ((stdout w ++ ["### Schnorr signature ###"%string])
        ++ ["Message to sign:  hello"%string])).
Proof.
  unfold main. rewrite bind_Println, bind_Println2. cbn [tape stdout].
  apply bind_ext. intros [sk pk] w1. reflexivity.
Qed.

(** The signature of [main]: the one that [Sign] makes of ["hello"]
    with the nonce [r]. *)
Lemma main_tail_Sign (sk : SignatureKey.t) (r : Z) (rest : list Z)
  (out : list string) :
  0 <= r < SignatureKey.p sk ->
  let sig :=
    Signature.mk (r * SignatureKey.g sk)
      ((r + challenge (r * SignatureKey.g sk) "hello" * SignatureKey.x sk)
       mod SignatureKey.p sk) in
  main_tail sk (public_of sk) (World (r :: rest) out) =
  (_ <- BlindSignatureProcess "hello" sk (public_of sk) ;; ret tt)
    (World rest
       ((out ++ [("Created signature: " ++ Signature_String sig)%string])
        ++ ["Signature is valid. Schnorr signature alghoritm is working!"%string])).
Proof.
  intros Hr sig. unfold main_tail. cbv zeta.
  erewrite bind_Val by (apply Sign_value; exact Hr). cbv beta. fold sig.
  rewrite bind_Println2. cbn [tape stdout].
  erewrite bind_lift_Val.
  2:{ rewrite VerifySignature_unfold. unfold sig.
      cbv beta iota delta [public_of PublicKey.p PublicKey.g PublicKey.X
                           Signature.R Signature.s].
      destruct (Z.eqb_spec (SignatureKey.p sk) 0) as [E | _]; [lia |].
      rewrite Z.abs_eq by lia.
      rewrite response_congruence, Z.eqb_refl. reflexivity. }
  cbv beta iota. rewrite bind_Println. reflexivity.
Qed.

Lemma main_tail_run (sk : SignatureKey.t) (r r' a b : Z) (rest : list Z)
  (out : list string) :
  0 <= r < SignatureKey.p sk ->
  0 <= r' < SignatureKey.p sk ->
  0 <= a < SignatureKey.p sk ->
  0 <= b < SignatureKey.p sk ->
  main_tail sk (public_of sk) (World (r :: r' :: a :: b :: rest) out) =
  Val (tt,
       World rest
         (out ++ skipn 2
                   (main_lines
                      (Signature.mk (r * SignatureKey.g sk)
                         ((r + challenge (r * SignatureKey.g sk) "hello"
                               * SignatureKey.x sk)
                          mod SignatureKey.p sk))))).
Proof.
  intros Hr Hr' Ha Hb.
  rewrite (main_tail_Sign sk r (r' :: a :: b :: rest) out Hr). cbv zeta.
  match goal with
  | |- bind _ _ (World _ ?o) = _ =>
      destruct (BlindSignatureProcess_honest "hello" sk r' a b rest o
                  Hr' Ha Hb) as [l Hl]
  end.
  erewrite bind_Val by exact Hl. cbv beta.
  unfold ret, main_lines. cbn [skipn].
  rewrite <- !app_assoc. reflexivity.
Qed.

(** [main_tail] panics with the error of [crypto/rand] or finds four
    values in range. *)
Lemma main_tail_cases (sk : SignatureKey.t) (w : world) :
  0 < SignatureKey.p sk ->
  main_tail sk (public_of sk) w = Throw RandError \/
  exists (r r' a b : Z) (rest : list Z),
    w = World (r :: r' :: a :: b :: rest) (stdout w) /\
    0 <= r < SignatureKey.p sk /\ 0 <= r' < SignatureKey.p sk /\
    0 <= a < SignatureKey.p sk /\ 0 <= b < SignatureKey.p sk.
Proof.
  intros Hp.
  destruct (Sign_cases "hello" sk w)
    as [[H _] | [[_ [_ HS]] | [_ [r [rest1 [sig [Ht [Hr _]]]]]]]].
  - lia.
  - left. unfold main_tail. cbv zeta. apply bind_Throw. exact HS.
  - assert (Hw : w = World (r :: rest1) (stdout w)).
    { destruct w as [tp so]. cbn [tape stdout] in *. subst tp. reflexivity. }
    rewrite Hw. cbn [stdout].
    rewrite (main_tail_Sign sk r rest1 (stdout w) Hr). cbv zeta.
    match goal with
    | |- bind _ _ ?w2 = _ \/ _ =>
        destruct (BlindSignatureProcess_cases "hello" sk (public_of sk) w2)
          as [[H _] | [[_ [_ HB]] | [[_ [H _]] | [_ [_ [l [w3 HB]]]]]]]
    end.
    + unfold public_of in H. cbn [PublicKey.p] in H. lia.
    + left. apply bind_Throw. exact HB.
    + lia.
    + right.
      destruct (BlindSignatureProcess_inv _ _ _ _ _ _ HB)
        as [r' [a [b [rest [Hw2 [Hr' [Ha [Hb _]]]]]]]].
      unfold public_of in Hr', Ha, Hb. cbn [PublicKey.p] in Hr', Ha, Hb.
      injection Hw2 as Hrest. subst rest1.
      exists r, r', a, b, rest. split_all; try assumption; try reflexivity; lia.
Qed.

(** [main] on six good values of [crypto/rand] (the prime, the private
    key, the nonce of [Sign], and the nonce and the two blinding
    factors of the blind protocol) prints seven lines: the signature is
    reported valid, and so are the two signatures of the blind
    protocol. *)
Theorem main_prints_valid (fuel : nat) (p x r r' a b : Z)
  (rest : list Z) (out : list string) :
  Z.prime p -> 3 * 2 ^ 254 <= p < 2 ^ 256 ->
  0 <= x < p -> 0 <= r < p -> 0 <= r' < p -> 0 <= a < p -> 0 <= b < p ->
  main (S fuel) (World (p :: x :: r :: r' :: a :: b :: rest) out) =
  Val (tt,
       World rest
         (out ++ main_lines
                   (Signature.mk (r * 2)
                      ((r + challenge (r * 2) "hello" * x) mod p)))).
Proof.
  intros Hp Hrange Hx Hr Hr' Ha Hb.
  rewrite main_unfold. cbn [tape stdout].
  erewrite bind_Val.
  2:{ eapply GenerateKeys_value.
      - apply rand_Prime_draw; [lia | exact Hp | exact Hrange].
      - reflexivity.
      - exact Hx. }
  cbn [fst snd stdout].
  change (PublicKey.mk p 2 (x * 2))
    with (public_of (SignatureKey.mk p 2 x)).
  rewrite main_tail_run by assumption.
  cbn [SignatureKey.p SignatureKey.g SignatureKey.x].
  unfold main_lines. cbn [skipn]. rewrite <- !app_assoc. reflexivity.
Qed.

Lemma main_prints_valid_witness :
  main 1 (World [prime256; 42; 7; 8; 9; 10] []) =
  Val (tt,
       World []
         ([] ++ main_lines
                  (Signature.mk (7 * 2)
                     ((7 + challenge (7 * 2) "hello" * 42) mod prime256)))).
Proof.
  apply (main_prints_valid 0 prime256 42 7 8 9 10 [] []).
  - exact prime256_prime.
  - split; [vm_compute; intros H; discriminate H | vm_compute; reflexivity].
  - split; [lia | reflexivity].
  - split; [lia | reflexivity].
  - split; [lia | reflexivity].
  - split; [lia | reflexivity].
  - split; [lia | reflexivity].
Defined.

(** [main] never reports an invalid signature.  Either it panics with
    the error of [crypto/rand], or it returns after it has read six
    values and printed the seven lines of a run in which every
    signature is valid.  It never divides by zero and never runs out of
    loop budget. *)
Theorem main_outcomes (fuel : nat) (w : world) :
  main (S fuel) w = Throw RandError \/
  exists (sig : Signature.t) (w' : world) (p x r r' a b : Z),
    main (S fuel) w = Val (tt, w') /\
    stdout w' = stdout w ++ main_lines sig /\
    tape w = p :: x :: r :: r' :: a :: b :: tape w'.
Proof.
  rewrite main_unfold.
  match goal with
  | |- bind _ _ ?w0 = _ \/ _ =>
      destruct (GenerateKeys_cases fuel w0) as [[sk [pk [w1 Hk]]] | Hk]
  end.
  2:{ left. apply bind_Throw. exact Hk. }
  erewrite bind_Val by exact Hk. cbn [fst snd].
  destruct (GenerateKeys_inv _ _ _ _ _ Hk)
    as [p [x [Hsk [Hpk [Hp [Hrange [Hx [Ht Ho]]]]]]]].
  cbn [tape stdout] in Ht, Ho. subst sk pk.
  change (PublicKey.mk p 2 (x * 2))
    with (public_of (SignatureKey.mk p 2 x)).
  destruct (main_tail_cases (SignatureKey.mk p 2 x) w1)
    as [HT | [r [r' [a [b [rest [Hw1 [Hr [Hr' [Ha Hb]]]]]]]]]].
  - cbn [SignatureKey.p]. lia.
  - left. exact HT.
  - right. rewrite Hw1. rewrite main_tail_run by assumption.
    do 2 eexists. exists p, x, r, r', a, b.
    split; [reflexivity |]. cbn [tape stdout].
    rewrite Ho, Ht, Hw1. cbn [tape].
    split; [| reflexivity].
    unfold main_lines. cbn [skipn]. rewrite <- !app_assoc. reflexivity.
Qed.

(* ================================================================= *)
(** ** hash and the challenge *)

Lemma be_bytes_length (n : nat) (x : Z) :
  List.length (SHA256.be_bytes n x) = n.
Proof.
  induction n as [| n IH]; [reflexivity |].
  cbn [SHA256.be_bytes List.length]. rewrite IH. reflexivity.
Qed.

Lemma be_bytes_bytes (n : nat) (x : Z) :
  Forall (fun b => 0 <= b < 256) (SHA256.be_bytes n x).
Proof.
  induction n as [| n IH]; [constructor |].
  cbn [SHA256.be_bytes]. constructor; [| exact IH].
  change 0xFF with (Z.ones 8). rewrite Z.land_ones by lia.
  apply Z.mod_pos_bound. reflexivity.
Qed.

Transparent SHA256.Sum256.

Lemma Sum256_bytes (msg : list Z) :
  List.length (SHA256.Sum256 msg) = 32%nat /\
  Forall (fun b => 0 <= b < 256) (SHA256.Sum256 msg).
Proof.
  unfold SHA256.Sum256. cbv zeta.
  generalize (fold_left SHA256.compress
                (SHA256.blocks
                   (List.length
                      (SHA256.words (List.length (SHA256.pad msg))
                         (SHA256.pad msg)))
                   (SHA256.words (List.length (SHA256.pad msg))
                      (SHA256.pad msg)))
                SHA256.init).
  intros h. cbn [flat_map]. split.
  - rewrite !length_app, !be_bytes_length. reflexivity.
  - repeat (apply Forall_app; split; [apply be_bytes_bytes |]).
    constructor.
Qed.

Opaque SHA256.Sum256.

Lemma SetBytes_acc_bound (bs : list Z) :
  Forall (fun b => 0 <= b < 256) bs ->
  forall (acc n : Z),
    0 <= n -> 0 <= acc < 256 ^ n ->
    0 <= fold_left (fun acc b => acc * 256 + b) bs acc
      < 256 ^ (n + Z.of_nat (List.length bs)).
Proof.
  induction 1 as [| b bs Hb _ IH]; intros acc n Hn Hacc.
  - cbn [fold_left List.length]. rewrite Z.add_0_r. exact Hacc.
  - cbn [fold_left List.length].
    replace (n + Z.of_nat (S (List.length bs)))
      with ((n + 1) + Z.of_nat (List.length bs)) by lia.
    apply IH; [lia |].
    rewrite Z.pow_add_r, Z.pow_1_r by lia. lia.
Qed.

(** [hash] returns 32 bytes, and the challenge made of them is a
    natural number of 256 bits at most; it is used as it is, whatever
    the order of the group. *)
Theorem challenge_range (R : Z) (m : string) :
  List.length (hash (big_String R ++ m)) = 32%nat /\
  Forall (fun b => 0 <= b < 256) (hash (big_String R ++ m)) /\
  0 <= challenge R m < 2 ^ 256.
Proof.
  unfold challenge, hash, SetBytes.
  destruct (Sum256_bytes (bytes_of_string (big_String R ++ m)))
    as [Hlen Hbytes].
  split; [exact Hlen |]. split; [exact Hbytes |].
  pose proof (SetBytes_acc_bound _ Hbytes 0 0 ltac:(lia) ltac:(lia)) as H.
  rewrite Hlen in H. change (256 ^ (0 + Z.of_nat 32)) with (2 ^ 256) in H.
  exact H.
Qed.

(* ================================================================= *)
(** ** Decimal strings *)

Lemma to_int_not_nil (x : Z) :
  Z.to_int x <> Decimal.Pos Decimal.Nil /\
  Z.to_int x <> Decimal.Neg Decimal.Nil.
Proof.
  destruct x as [| p | p]; cbn [Z.to_int]; split; intros H;
    try discriminate H;
    injection H as H; exact (DecimalPos.Unsigned.to_uint_nonnil p H).
Qed.

Lemma big_String_inj (x y : Z) : big_String x = big_String y -> x = y.
Proof.
  unfold big_String. intros H.
  apply (f_equal NilZero.int_of_string) in H.
  destruct (to_int_not_nil x) as [Hx1 Hx2].
  destruct (to_int_not_nil y) as [Hy1 Hy2].
  rewrite !NilZero.isi in H by assumption.
  injection H as H. apply DecimalZ.to_int_inj. exact H.
Qed.

(** [String] of [big.Int] is one to one: two numbers that differ have
    decimal strings that differ. *)
Theorem big_String_injective (x y : Z) :
  x <> y -> big_String x <> big_String y.
Proof.
  intros Hxy H. apply Hxy. apply big_String_inj. exact H.
Qed.

Lemma big_String_injective_witness : big_String 12 <> big_String (-12).
Proof.
  apply (big_String_injective 12 (-12)). intros H. discriminate H.
Defined.

Lemma string_append_assoc (a b c : string) :
  (a ++ (b ++ c))%string = ((a ++ b) ++ c)%string.
Proof.
  induction a as [| ch a IH]; [reflexivity |].
  cbn [append]. rewrite IH. reflexivity.
Qed.

Lemma string_of_uint_revapp (l acc : Decimal.uint) :
  NilEmpty.string_of_uint (Decimal.revapp l acc) =
  (NilEmpty.string_of_uint (Decimal.rev l)
   ++ NilEmpty.string_of_uint acc)%string.
Proof.
  revert acc. unfold Decimal.rev.
  induction l as [| l IH | l IH | l IH | l IH | l IH | l IH | l IH
                  | l IH | l IH | l IH]; intros acc;
    [reflexivity | ..];
    cbn [Decimal.revapp];
    rewrite IH; symmetry; rewrite IH;
    rewrite <- string_append_assoc; reflexivity.
Qed.

Lemma to_lu_digit (p : positive) (k : nat) :
  DecimalPos.Unsigned.to_lu (10 * N.pos p + N.of_nat k) =
  Nat.iter k Decimal.Little.succ
    (Decimal.D0 (DecimalPos.Unsigned.to_lu (N.pos p))).
Proof.
  induction k as [| k IH].
  - rewrite N.add_0_r. apply DecimalPos.Unsigned.to_ldec_tenfold.
  - replace (10 * N.pos p + N.of_nat (S k))%N
      with (N.succ (10 * N.pos p + N.of_nat k))%N by lia.
    rewrite DecimalPos.Unsigned.to_lu_succ, IH. reflexivity.
Qed.

(** The decimal string of [10 * R + d] is the one of [R] followed by
    the digit [d]. *)
Lemma big_String_digit (R d : Z) :
  0 < R -> 0 <= d <= 9 ->
  big_String (10 * R + d) = (big_String R ++ big_String d)%string.
Proof.
  intros HR Hd.
  destruct R as [| p | p]; try lia.
  destruct (10 * Z.pos p + d) as [| q | q] eqn:E; try lia.
  unfold big_String at 1 2. cbn [Z.to_int NilZero.string_of_int].
  unfold Pos.to_uint.
  assert (Hq : Pos.to_little_uint q =
               Nat.iter (Z.to_nat d) Decimal.Little.succ
                 (Decimal.D0 (Pos.to_little_uint p))).
  { pose proof (to_lu_digit p (Z.to_nat d)) as H.
    replace (10 * N.pos p + N.of_nat (Z.to_nat d))%N with (N.pos q) in H
      by lia.
    exact H. }
  rewrite Hq.
  assert (Hnil : forall u, Decimal.rev u = Decimal.Nil -> u = Decimal.Nil)
    by (intros u; apply DecimalFacts.rev_nil_inv).
  assert (Hp : Decimal.rev (Pos.to_little_uint p) <> Decimal.Nil)
    by exact (DecimalPos.Unsigned.to_uint_nonnil p).
  assert (Hstr : forall u, u <> Decimal.Nil ->
            NilZero.string_of_uint u = NilEmpty.string_of_uint u)
    by (intros u Hu; destruct u; [contradiction Hu; reflexivity
                                 | reflexivity ..]).
  rewrite (Hstr _ Hp).
  clear E.
  remember (Z.to_nat d) as n eqn:En.
  assert (Ed : d = Z.of_nat n) by lia. subst d. clear En.
  do 10 (destruct n as [| n];
         [cbn [Nat.iter nat_rect Decimal.Little.succ];
          (rewrite Hstr;
           [unfold Decimal.rev at 1; cbn [Decimal.revapp];
            rewrite string_of_uint_revapp; reflexivity
           | intros Hn; apply Hnil in Hn; discriminate Hn]) |]).
  lia.
Qed.

(** The commitment and the message are joined without a separator
    before they are hashed: a digit can move from the end of the
    commitment to the front of the message and leave the challenge
    unchanged. *)
Theorem challenge_digit_moves (R d : Z) (m : string) :
  0 < R -> 0 <= d <= 9 ->
  challenge (10 * R + d) m = challenge R (big_String d ++ m).
Proof.
  intros HR Hd. unfold challenge.
  rewrite big_String_digit by assumption.
  rewrite <- string_append_assoc. reflexivity.
Qed.

Lemma challenge_digit_moves_witness :
  challenge (10 * 35 + 7) "hello" = challenge 35 (big_String 7 ++ "hello").
Proof.
  apply (challenge_digit_moves 35 7 "hello"); lia.
Defined.

(* ================================================================= *)
(** ** Signature.String *)

Lemma string_of_uint_chars (u : Decimal.uint) (c : ascii) :
  In c (list_ascii_of_string (NilEmpty.string_of_uint u)) ->
  c <> ","%char /\ c <> ")"%char.
Proof.
  induction u as [| u IH | u IH | u IH | u IH | u IH | u IH | u IH
                  | u IH | u IH | u IH];
    cbn [NilEmpty.string_of_uint list_ascii_of_string In];
    [intros [] | ..];
    (intros [H | H]; [subst c; split; intros E; discriminate E
                     | exact (IH H)]).
Qed.

Lemma big_String_chars (x : Z) (c : ascii) :
  In c (list_ascii_of_string (big_String x)) ->
  c <> ","%char /\ c <> ")"%char.
Proof.
  unfold big_String.
  assert (Hu : forall u,
             In c (list_ascii_of_string (NilZero.string_of_uint u)) ->
             c <> ","%char /\ c <> ")"%char).
  { intros u. destruct u; try apply string_of_uint_chars.
    cbn. intros [H | []]. subst c. split; intros E; discriminate E. }
  destruct (Z.to_int x) as [u | u]; cbn [NilZero.string_of_int].
  - apply Hu.
  - cbn [list_ascii_of_string In]. intros [H | H]; [| exact (Hu u H)].
    subst c. split; intros E; discriminate E.
Qed.

Lemma append_separator_inj (sep : ascii) (a a' t t' : string) :
  (forall c, In c (list_ascii_of_string a) -> c <> sep) ->
  (forall c, In c (list_ascii_of_string a') -> c <> sep) ->
  (a ++ String sep t)%string = (a' ++ String sep t')%string ->
  a = a' /\ t = t'.
Proof.
  revert a'. induction a as [| ch a IH]; intros [| ch' a'] Ha Ha' H;
    cbn [append] in H.
  - injection H as H. split; [reflexivity | exact H].
  - injection H as Hc _. exfalso. apply (Ha' ch'); [left; reflexivity |].
    symmetry. exact Hc.
  - injection H as Hc _. exfalso. apply (Ha ch); [left; reflexivity |].
    exact Hc.
  - injection H as Hc H. subst ch'.
    destruct (IH a') as [E1 E2].
    + intros c Hc. apply Ha. right. exact Hc.
    + intros c Hc. apply Ha'. right. exact Hc.
    + exact H.
    + subst a'. split; [reflexivity | exact E2].
Qed.

Lemma Signature_String_inj (S1 S2 : Signature.t) :
  Signature_String S1 = Signature_String S2 -> S1 = S2.
Proof.
  destruct S1 as [R1 s1], S2 as [R2 s2]. unfold Signature_String.
  cbn [Signature.R Signature.s]. intros H.
  cbn [append] in H. injection H as H.
  apply append_separator_inj in H;
    try (intros c Hc; exact (proj1 (big_String_chars _ c Hc))).
  destruct H as [HR H]. injection H as H.
  apply append_separator_inj in H;
    try (intros c Hc; exact (proj2 (big_String_chars _ c Hc))).
  destruct H as [Hs _].
  apply big_String_inj in HR. apply big_String_inj in Hs.
  subst. reflexivity.
Qed.

(** The string of a signature, ["(r=R, s=s)"], tells the signature:
    two signatures that differ are printed differently. *)
Theorem Signature_String_injective (S1 S2 : Signature.t) :
  S1 <> S2 -> Signature_String S1 <> Signature_String S2.
Proof.
  intros HS H. apply HS. apply Signature_String_inj. exact H.
Qed.

Lemma Signature_String_injective_witness :
  Signature_String (Signature.mk 35 17)
  <> Signature_String (Signature.mk 3 517).
Proof.
  apply (Signature_String_injective (Signature.mk 35 17)
           (Signature.mk 3 517)).
  intros H. discriminate H.
Defined.

Example Signature_String_value :
  Signature_String (Signature.mk 35 17) = "(r=35, s=17)"%string.
Proof. reflexivity. Qed.

(* ================================================================= *)
(** ** Outcomes at concrete inputs *)



(** With an order of 1 or -1 every residue is zero: [VerifySignature]
    accepts every signature of every message. *)
Theorem VerifySignature_order_one (m : string) (sig : Signature.t)
  (g X : Z) :
  VerifySignature m sig (PublicKey.mk 1 g X) = Val true /\
  VerifySignature m sig (PublicKey.mk (-1) g X) = Val true.
Proof.
  rewrite !VerifySignature_unfold.
  cbv beta iota delta [PublicKey.p PublicKey.g PublicKey.X].
  generalize (challenge (Signature.R sig) m). intros c.
  change (Z.abs (-1)) with 1. change (Z.abs 1) with 1.
  change (1 =? 0) with false. change (-1 =? 0) with false.
  rewrite !Z.mod_1_r. split; reflexivity.
Qed.
